(** * Cross-Chain Price Checker: a shallow embedding and its properties

    The development follows the Python package [cross_chain_price_checker]:
    - [utils.py]: [retry_on_failure], [calculate_price_difference], [AsyncCache];
    - [exchanges/base.py]: [ExchangeType], [ExchangePrice], [Exchange];
    - [token_resolver.py]: [TokenResolver];
    - [price_checker.py]: [ArbitrageOpportunity], [PriceChecker].

    Python exceptions are values of type [exn]; code that may raise returns a
    [result]; code that also touches mutable state or the outside world runs
    in the state-and-exception monad [M].  Python [float]s are an instance of
    the interface [Number]: exact rationals ([Q]) for the general theorems and
    IEEE-754 binary64 ([PrimFloat]) to evaluate the code on concrete inputs. *)

From Stdlib Require Import ZArith QArith Qabs Qminmax Qround Lqa Floats Ascii String Sorting.Sorted Permutation.
From stdpp Require Import gmap strings list.

(** ** Exceptions and results *)

(** A Python exception: its class name and the text [str(e)]. *)
Inductive exn : Type := Exn (cls : string) (msg : string).

Definition str (e : exn) : string := match e with Exn _ msg => msg end.

Definition ZeroDivisionError : exn := Exn "ZeroDivisionError" "float division by zero".
Definition ValueError (msg : string) : exn := Exn "ValueError" msg.
Definition KeyError (key : string) : exn := Exn "KeyError" key.
Definition TypeError (msg : string) : exn := Exn "TypeError" msg.
Definition AttributeError (msg : string) : exn := Exn "AttributeError" msg.

Inductive result (A : Type) : Type :=
| Return (a : A)
| Raise (e : exn).
Arguments Return {A} a.
Arguments Raise {A} e.

#[export] Instance result_ret : MRet result := λ A a, Return a.

#[export] Instance result_bind : MBind result := λ A B k r,
  match r with
  | Return a => k a
  | Raise e => Raise e
  end.

(** ** Numbers *)

(** The operations the code performs on prices.  [nltb], [nleb] and [neqb]
    are Python's [<], [<=] and [==]; [of_int] converts an [int] operand;
    [ndiv_raw] is the quotient when the divisor is not zero (Python raises
    [ZeroDivisionError] otherwise, see [div]).  The one law says that a
    number above zero does not compare equal to zero. *)
Class Number : Type := {
  num : Type;
  nzero : num;
  nhundred : num;
  of_int : nat → num;
  nadd : num → num → num;
  nsub : num → num → num;
  nmul : num → num → num;
  ndiv_raw : num → num → num;
  nabs : num → num;
  nltb : num → num → bool;
  nleb : num → num → bool;
  neqb : num → num → bool;
  pos_nonzero : ∀ x, nltb nzero x = true → neqb x nzero = false
}.

(** Exact rationals. *)
Definition Qltb (x y : Q) : bool := negb (Qle_bool y x).

Lemma Qltb_lt (x y : Q) : Qltb x y = true ↔ (x < y)%Q.
Proof.
  unfold Qltb. rewrite negb_true_iff. split.
  - intros H. apply Qnot_le_lt. intros Hle.
    apply Qle_bool_iff in Hle. congruence.
  - intros H. destruct (Qle_bool y x) eqn:E; [|done].
    apply Qle_bool_iff in E. exfalso. apply (Qlt_not_le _ _ H E).
Qed.

Lemma Qltb_ge (x y : Q) : Qltb x y = false ↔ (y <= x)%Q.
Proof.
  unfold Qltb. rewrite negb_false_iff. apply Qle_bool_iff.
Qed.

Lemma Q_pos_nonzero (x : Q) : Qltb 0 x = true → Qeq_bool x 0 = false.
Proof.
  intros H%Qltb_lt. destruct (Qeq_bool x 0) eqn:E; [|done].
  apply Qeq_bool_iff in E. rewrite E in H. exfalso. apply (Qlt_irrefl _ H).
Qed.

#[export] Instance QNumber : Number := {|
  num := Q;
  nzero := 0%Q;
  nhundred := 100%Q;
  of_int := λ n, inject_Z (Z.of_nat n);
  nadd := Qplus;
  nsub := Qminus;
  nmul := Qmult;
  ndiv_raw := Qdiv;
  nabs := Qabs;
  nltb := Qltb;
  nleb := Qle_bool;
  neqb := Qeq_bool;
  pos_nonzero := Q_pos_nonzero
|}.

(** IEEE-754 binary64, the representation of a Python [float]. *)
Lemma float_pos_nonzero (x : float) :
  PrimFloat.ltb 0%float x = true → PrimFloat.eqb x 0%float = false.
Proof.
  rewrite FloatAxioms.ltb_spec, FloatAxioms.eqb_spec.
  change (Prim2SF 0%float) with (S754_zero false).
  destruct (Prim2SF x) as [[]|[]| |[] m e]; cbv; congruence.
Qed.

Definition FloatNumber : Number := {|
  num := float;
  nzero := 0%float;
  nhundred := 100%float;
  of_int := λ n, PrimFloat.of_uint63 (Uint63.of_Z (Z.of_nat n));
  nadd := PrimFloat.add;
  nsub := PrimFloat.sub;
  nmul := PrimFloat.mul;
  ndiv_raw := PrimFloat.div;
  nabs := PrimFloat.abs;
  nltb := PrimFloat.ltb;
  nleb := PrimFloat.leb;
  neqb := PrimFloat.eqb;
  pos_nonzero := float_pos_nonzero
|}.

(** ** exchanges/base.py *)

Inductive ExchangeType : Type := DEX | CEX.

#[export] Instance ExchangeType_eq_dec : EqDecision ExchangeType.
Proof. solve_decision. Defined.

Section Analyzer.
Context {N : Number}.

(** [ExchangePrice]: the dataclass; the field [pair] is [trading_pair] here. *)
Record ExchangePrice : Type := {
  exchange_name : string;
  exchange_type : ExchangeType;
  price : option num;
  token_symbol : string;
  chain : option string;
  trading_pair : option string;
  liquidity : option num;
  error : option string
}.

(** [self.price is not None and self.price > 0 and self.error is None] *)
Definition is_valid (p : ExchangePrice) : bool :=
  match price p with
  | Some x => nltb nzero x && bool_decide (error p = None)
  | None => false
  end.

(** ** utils.py: arithmetic *)

(** Python's [x / y]. *)
Definition div (x y : num) : result num :=
  if neqb y nzero then Raise ZeroDivisionError else Return (ndiv_raw x y).

(** Python's [x / n] for an [int] [n]. *)
Definition div_int (x : num) (n : nat) : result num :=
  if Nat.eqb n 0 then Raise ZeroDivisionError else Return (ndiv_raw x (of_int n)).

Definition calculate_price_difference (price1 price2 : num) : result num :=
  if neqb price2 nzero then Return nzero
  else q ← div (nsub price1 price2) price2; Return (nmul q nhundred).

(** ** price_checker.py: the analyzer *)

Record ArbitrageOpportunity : Type := {
  buy_exchange : string;
  sell_exchange : string;
  buy_price : num;
  sell_price : num;
  price_difference_percent : num;
  potential_profit_percent : num
}.

(** The dictionary [analyze_prices] returns; a key that the dictionary does
    not have is [None]. *)
Record Analysis : Type := {
  count : nat;
  valid_count : nat;
  error_count : nat;
  min_price : option num;
  max_price : option num;
  avg_price : option num;
  spread_percent : option num;
  prices : list ExchangePrice;
  opportunities : list ArbitrageOpportunity
}.

(** Reading [p.price] as an operand: arithmetic on [None] is a [TypeError]. *)
Definition price_value (p : ExchangePrice) : result num :=
  match price p with
  | Some x => Return x
  | None => Raise (TypeError "unsupported operand type(s): 'NoneType'")
  end.

(** [min], [max] and [sum] of the builtins, on a list of numbers. *)
Definition py_min (l : list num) : result num :=
  match l with
  | [] => Raise (ValueError "min() arg is an empty sequence")
  | x :: l' => Return (fold_left (λ cur item, if nltb item cur then item else cur) l' x)
  end.

Definition py_max (l : list num) : result num :=
  match l with
  | [] => Raise (ValueError "max() arg is an empty sequence")
  | x :: l' => Return (fold_left (λ cur item, if nltb cur item then item else cur) l' x)
  end.

Definition py_sum (l : list num) : num := fold_left nadd l nzero.

(** The body of the inner loop: the opportunity of one pair, if any. *)
Definition find_opportunity (min_diff : num) (price1 price2 : ExchangePrice)
  : result (option ArbitrageOpportunity) :=
  p1 ← price_value price1;
  p2 ← price_value price2;
  d ← calculate_price_difference p1 p2;
  let diff_percent := nabs d in
  if nleb min_diff diff_percent then
    let '(buy, sell) :=
      if nltb p1 p2 then (price1, p1, (price2, p2)) else (price2, p2, (price1, p1)) in
    q ← div (nsub sell.2 buy.2) buy.2;
    let profit_percent := nmul q nhundred in
    Return (Some {| buy_exchange := exchange_name buy.1;
                    sell_exchange := exchange_name sell.1;
                    buy_price := buy.2;
                    sell_price := sell.2;
                    price_difference_percent := diff_percent;
                    potential_profit_percent := profit_percent |})
  else Return None.

(** [for price2 in valid_prices[i + 1:]] *)
Fixpoint scan_row (min_diff : num) (price1 : ExchangePrice)
    (rest : list ExchangePrice) : result (list ArbitrageOpportunity) :=
  match rest with
  | [] => Return []
  | price2 :: rest' =>
      o ← find_opportunity min_diff price1 price2;
      more ← scan_row min_diff price1 rest';
      Return (option_list o ++ more)
  end.

(** [for i, price1 in enumerate(valid_prices)] *)
Fixpoint scan_pairs (min_diff : num) (valid_prices : list ExchangePrice)
  : result (list ArbitrageOpportunity) :=
  match valid_prices with
  | [] => Return []
  | price1 :: rest =>
      row ← scan_row min_diff price1 rest;
      more ← scan_pairs min_diff rest;
      Return (row ++ more)
  end.

(** [opportunities.sort(key=lambda x: x.potential_profit_percent,
    reverse=True)]: [list.sort] is stable, compares keys with [<] only, and
    with [reverse=True] keeps elements of equal key in their original order.
    On keys that [<] orders totally that result is unique; it is computed here
    by insertion. *)
Fixpoint insert_by_profit (x : ArbitrageOpportunity)
    (l : list ArbitrageOpportunity) : list ArbitrageOpportunity :=
  match l with
  | [] => [x]
  | y :: l' =>
      if nltb (potential_profit_percent x) (potential_profit_percent y)
      then y :: insert_by_profit x l'
      else x :: y :: l'
  end.

Definition sort_by_profit (l : list ArbitrageOpportunity) : list ArbitrageOpportunity :=
  foldr insert_by_profit [] l.

(** [PriceChecker.analyze_prices]; [min_diff] is the configured
    [comparison.min_price_difference_percent]. *)
Definition analyze_prices (min_diff : num) (prices0 : list ExchangePrice)
  : result Analysis :=
  let valid_prices := filter (λ p, is_valid p) prices0 in
  match valid_prices with
  | [] =>
      Return {| count := 0; valid_count := 0; error_count := length prices0;
                min_price := None; max_price := None; avg_price := None;
                spread_percent := None;
                prices := prices0; opportunities := [] |}
  | _ :: _ =>
      price_values ← mapM price_value valid_prices;
      min_p ← py_min price_values;
      max_p ← py_max price_values;
      avg_p ← div_int (py_sum price_values) (length price_values);
      q ← div (nsub max_p min_p) min_p;
      let spread := nmul q nhundred in
      found ← scan_pairs min_diff valid_prices;
      Return {| count := length prices0;
                valid_count := length valid_prices;
                error_count := length prices0 - length valid_prices;
                min_price := Some min_p; max_price := Some max_p;
                avg_price := Some avg_p; spread_percent := Some spread;
                prices := prices0;
                opportunities := sort_by_profit found |}
  end.

End Analyzer.

Arguments ExchangePrice : clear implicits.
Arguments ArbitrageOpportunity : clear implicits.
Arguments Analysis : clear implicits.

(** ** Stateful code: the state-and-exception monad *)

(** A computation over a mutable world [S]: it returns or raises, and the
    changes it made to the world before raising stay. *)
Definition M (S A : Type) : Type := S → result A * S.

#[export] Instance M_ret {S} : MRet (M S) := λ A a s, (Return a, s).

#[export] Instance M_bind {S} : MBind (M S) := λ A B k m s,
  match m s with
  | (Return a, s') => k a s'
  | (Raise e, s') => (Raise e, s')
  end.

Definition raise {S A} (e : exn) : M S A := λ s, (Raise e, s).

(** [try: body  except Exception as e: handler e] *)
Definition try_except {S A} (body : M S A) (handler : exn → M S A) : M S A := λ s,
  match body s with
  | (Return a, s') => (Return a, s')
  | (Raise e, s') => handler e s'
  end.

(** A computation that leaves the world alone: it returns or raises as [r]. *)
Definition lift {S A} (r : result A) : M S A := λ s, (r, s).

(** ** utils.py: [retry_on_failure] *)

Section Retry.
Context {S T : Type}.
(** [asyncio.sleep] in [async_wrapper], [time.sleep] in [sync_wrapper]; the
    two wrappers have the same body otherwise. *)
Variable sleep : Q → M S unit.

(** The [for attempt in range(max_retries)] loop and the final
    [raise last_exception]; raising [None] is a [TypeError]. *)
Fixpoint retry_loop (max_retries : nat) (delay : Q) (func : M S T)
    (attempts : list nat) (last_exception : option exn) : M S T :=
  match attempts with
  | [] =>
      match last_exception with
      | Some e => raise e
      | None => raise (TypeError "exceptions must derive from BaseException")
      end
  | attempt :: attempts' =>
      try_except func (λ e,
        (if attempt <? max_retries - 1
         then sleep (delay * inject_Z (Z.of_nat (attempt + 1)))%Q
         else mret tt);;
        retry_loop max_retries delay func attempts' (Some e))
  end.

Definition retry_on_failure (max_retries : nat) (delay : Q) (func : M S T) : M S T :=
  retry_loop max_retries delay func (seq 0 max_retries) None.

End Retry.

(** *** An observer for the wrapper: what it invoked and how long it slept *)

Inductive Event : Type :=
| Invoked
| Slept (d : Q).

(** The wrapped operation, leaving a mark at each invocation. *)
Definition observed {S T} (func : M S T) : M (list Event * S) T := λ '(tr, s),
  let '(r, s') := func s in (r, (tr ++ [Invoked], s')).

Definition observed_sleep {S} (d : Q) : M (list Event * S) unit := λ '(tr, s),
  (Return tt, (tr ++ [Slept d], s)).

(** The outcome of the invocation number [k] (from 0) of [func] when it is
    invoked again and again from the world [s], and the world it leaves. *)
Fixpoint outcome_at {S T} (func : M S T) (s : S) (k : nat) : result T * S :=
  match k with
  | 0 => func s
  | Datatypes.S k' => outcome_at func (func s).2 k'
  end.

Definition is_invoked (ev : Event) : bool :=
  match ev with Invoked => true | Slept _ => false end.

Definition invocations (tr : list Event) : nat :=
  length (filter (λ ev, is_invoked ev) tr).

Definition sleeps (tr : list Event) : list Q :=
  omap (λ ev, match ev with Invoked => None | Slept d => Some d end) tr.

(** The trace of [k] failed attempts followed by one more attempt: the
    attempt number [j] (from 1), when it is not the last, is followed by a
    sleep of [delay * j]. *)
Definition backoff_trace (delay : Q) (k : nat) : list Event :=
  flat_map (λ j, [Invoked; Slept (delay * inject_Z (Z.of_nat j))%Q]) (seq 1 k) ++ [Invoked].

(** ** Strings *)

(** [str.lower] and [str.upper]; strings are byte strings here, and only the
    letters A-Z and a-z have another case. *)
Definition is_upper (c : ascii) : bool :=
  let n := nat_of_ascii c in (65 <=? n) && (n <=? 90).

Definition is_lower (c : ascii) : bool :=
  let n := nat_of_ascii c in (97 <=? n) && (n <=? 122).

Definition lower_ascii (c : ascii) : ascii :=
  if is_upper c then ascii_of_nat (nat_of_ascii c + 32) else c.

Definition upper_ascii (c : ascii) : ascii :=
  if is_lower c then ascii_of_nat (nat_of_ascii c - 32) else c.

Fixpoint lower (s : string) : string :=
  match s with
  | EmptyString => EmptyString
  | String c s' => String (lower_ascii c) (lower s')
  end.

Fixpoint upper (s : string) : string :=
  match s with
  | EmptyString => EmptyString
  | String c s' => String (upper_ascii c) (upper s')
  end.

(** Two strings that are the same up to the case of their letters. *)
Inductive case_variant : string → string → Prop :=
| case_variant_nil : case_variant EmptyString EmptyString
| case_variant_same c s s' :
    case_variant s s' → case_variant (String c s) (String c s')
| case_variant_down c s s' :
    is_upper c = true → case_variant s s' →
    case_variant (String c s) (String (lower_ascii c) s')
| case_variant_up c s s' :
    is_upper c = true → case_variant s s' →
    case_variant (String (lower_ascii c) s) (String c s').

(** ** token_resolver.py *)

(** The dictionary [get_token_info] builds (keys [id], [symbol], [name],
    [platforms]); it is never empty, so it is always true as a condition. *)
Record TokenInfo : Type := {
  info_id : option string;
  info_symbol : string;
  info_name : option string;
  info_platforms : gmap string string
}.

(** A coin object of the metadata source; a key that is missing is [None]. *)
Record Coin : Type := {
  coin_id : option string;
  coin_symbol : option string;
  coin_name : option string;
  coin_platforms : option (list (string * string))
}.

(** A decoded response: the coin list or one coin.  A response of the other
    shape than the caller expects makes the caller's [.get] fail with an
    [AttributeError], inside its [try]. *)
Inductive json : Type :=
| JList (coins : list Coin)
| JObject (coin : Coin).

Definition PLATFORM_MAP : list (string * string) :=
  [("ethereum", "ethereum"); ("bsc", "binance-smart-chain");
   ("solana", "solana"); ("polygon", "polygon-pos")].

(** The inner [for our_name, cg_name in PLATFORM_MAP.items()] with its
    [else]: our name of the platform, or the platform's own name. *)
Fixpoint standard_name (items : list (string * string)) (platform : string) : string :=
  match items with
  | [] => platform
  | (our_name, cg_name) :: items' =>
      if String.eqb cg_name platform then our_name else standard_name items' platform
  end.

(** [for platform, address in platforms.items()] *)
Fixpoint extract_platforms (items : list (string * string))
    (acc : gmap string string) : gmap string string :=
  match items with
  | [] => acc
  | (platform, address) :: items' =>
      extract_platforms items'
        (if String.eqb address "" then acc
         else <[standard_name PLATFORM_MAP platform := address]> acc)
  end.

Section Resolver.
(** The outside world: the metadata service behind [session.get] (with
    [raise_for_status] and [response.json]), the clock and sleeping. *)
Variable Env : Type.
Variable http_get : string → list (string * string) → Env → result json * Env.
Variable time_time : Env → Q * Env.
Variable env_sleep : Q → Env → Env.

(** The resolver with its [AsyncCache] ([ttl], [_cache], [_timestamps]), the
    world it talks to, and the requests it has sent so far.  A cached value
    may be [None]. *)
Record TokenResolver : Type := {
  env : Env;
  request_log : list string;
  ttl : Q;
  _cache : gmap string (option TokenInfo);
  _timestamps : gmap string Q
}.

Definition with_env (r : TokenResolver) (e : Env) : TokenResolver :=
  {| env := e; request_log := request_log r; ttl := ttl r;
     _cache := _cache r; _timestamps := _timestamps r |}.

(** [TokenResolver.__init__]: [AsyncCache(ttl=3600)], nothing cached. *)
Definition new_resolver (e : Env) : TokenResolver :=
  {| env := e; request_log := []; ttl := 3600; _cache := ∅; _timestamps := ∅ |}.

(** [AsyncCache.get] *)
Definition AsyncCache_get (key : string) : M TokenResolver (option TokenInfo) := λ r,
  match _cache r !! key with
  | Some value =>
      let '(now, e) := time_time (env r) in
      match _timestamps r !! key with
      | None => (Raise (KeyError key), with_env r e)
      | Some stamp =>
          if Qltb (now - stamp) (ttl r) then (Return value, with_env r e)
          else (Return None,
                {| env := e; request_log := request_log r; ttl := ttl r;
                   _cache := delete key (_cache r);
                   _timestamps := delete key (_timestamps r) |})
      end
  | None => (Return None, r)
  end.

(** [AsyncCache.set] *)
Definition AsyncCache_set (key : string) (value : option TokenInfo)
  : M TokenResolver unit := λ r,
  let '(now, e) := time_time (env r) in
  (Return tt,
   {| env := e; request_log := request_log r; ttl := ttl r;
      _cache := <[key := value]> (_cache r);
      _timestamps := <[key := now]> (_timestamps r) |}).

Definition sleep (d : Q) : M TokenResolver unit := λ r,
  (Return tt, with_env r (env_sleep d (env r))).

(** The body of [_make_request]: one request to the metadata service. *)
Definition request_once (endpoint : string) (params : list (string * string))
  : M TokenResolver json := λ r,
  let '(response, e) := http_get endpoint params (env r) in
  (response,
   {| env := e; request_log := request_log r ++ [endpoint]; ttl := ttl r;
      _cache := _cache r; _timestamps := _timestamps r |}).

(** [@retry_on_failure(max_retries=3, delay=1.0)] *)
Definition _make_request (endpoint : string) (params : list (string * string))
  : M TokenResolver json :=
  retry_on_failure sleep 3 1 (request_once endpoint params).

(** [TokenResolver.get_token_info] *)
Definition get_token_info (coin_id0 : string) : M TokenResolver (option TokenInfo) :=
  let cache_key := "info_" +:+ coin_id0 in
  cached ← AsyncCache_get cache_key;
  match cached with
  | Some info => mret (Some info)
  | None =>
      try_except
        (data ← _make_request ("coins/" +:+ coin_id0)
                  [("localization", "false"); ("tickers", "false");
                   ("market_data", "false"); ("community_data", "false");
                   ("developer_data", "false")];
         match data with
         | JObject data =>
             let token_info :=
               {| info_id := coin_id data;
                  info_symbol := upper (default "" (coin_symbol data));
                  info_name := coin_name data;
                  info_platforms :=
                    extract_platforms (default [] (coin_platforms data)) ∅ |} in
             AsyncCache_set cache_key (Some token_info);;
             mret (Some token_info)
         | JList _ => raise (AttributeError "'list' object has no attribute 'get'")
         end)
        (λ e, mret None)
  end.

(** The condition of the search loop. *)
Definition coin_matches (query_lower : string) (coin : Coin) : bool :=
  String.eqb (lower (default "" (coin_symbol coin))) query_lower
  || String.eqb (lower (default "" (coin_name coin))) query_lower
  || String.eqb (lower (default "" (coin_id coin))) query_lower.

(** [for coin in coins] in [search_token] *)
Fixpoint search_coins (cache_key query_lower : string) (coins : list Coin)
  : M TokenResolver (option TokenInfo) :=
  match coins with
  | [] => mret None
  | coin :: coins' =>
      if coin_matches query_lower coin then
        match coin_id coin with
        | None => raise (KeyError "id")
        | Some cid =>
            coin_info ← get_token_info cid;
            AsyncCache_set cache_key coin_info;;
            mret coin_info
        end
      else search_coins cache_key query_lower coins'
  end.

(** [TokenResolver.search_token] *)
Definition search_token (query : string) : M TokenResolver (option TokenInfo) :=
  let cache_key := "search_" +:+ lower query in
  cached ← AsyncCache_get cache_key;
  match cached with
  | Some info => mret (Some info)
  | None =>
      try_except
        (coins ← _make_request "coins/list" [("include_platform", "true")];
         let query_lower := lower query in
         match coins with
         | JList coins => search_coins cache_key query_lower coins
         | JObject _ => raise (AttributeError "'str' object has no attribute 'get'")
         end)
        (λ e, mret None)
  end.

End Resolver.

Arguments env {Env} _.
Arguments request_log {Env} _.
Arguments ttl {Env} _.
Arguments _cache {Env} _.
Arguments _timestamps {Env} _.
Arguments with_env {Env} _ _.
Arguments new_resolver {Env} _.

(** ** price_checker.py: the orchestrator *)

(** The adapter classes [get_token_prices] tells apart with [isinstance]. *)
Inductive ExchangeClass : Type :=
| UniswapV2 | UniswapV3 | PancakeSwapV2 | Raydium | Binance | Bybit | OtherExchange.

Section Checker.
Context {N : Number}.
Variable Env : Type.
Variable http_get : string → list (string * string) → Env → result json * Env.
Variable time_time : Env → Q * Env.
Variable env_sleep : Q → Env → Env.

(** An adapter: [get_price] is the outcome of awaiting the coroutine made
    from the positional arguments, a quote or an exception that escaped. *)
Record Exchange : Type := {
  name : string;
  adapter_type : ExchangeType;
  adapter_class : ExchangeClass;
  get_price : list string → result (ExchangePrice N)
}.

Record PriceChecker : Type := {
  exchanges : list Exchange;
  min_price_difference_percent : num
}.

(** [addresses.get(chain)] followed by [if token_address:] *)
Definition address_on (addresses : gmap string string) (chain0 : string) : option string :=
  match addresses !! chain0 with
  | Some a => if String.eqb a "" then None else Some a
  | None => None
  end.

(** The body of [for exchange in self.exchanges]: the task appended for this
    exchange, if any. *)
Definition task_for (token_symbol0 : string) (addresses : gmap string string)
    (exchange : Exchange) : option (result (ExchangePrice N)) :=
  match adapter_type exchange with
  | DEX =>
      match adapter_class exchange with
      | UniswapV2 | UniswapV3 =>
          token_address ← address_on addresses "ethereum";
          Some (get_price exchange [token_address; token_symbol0])
      | PancakeSwapV2 =>
          token_address ← address_on addresses "bsc";
          Some (get_price exchange [token_address; token_symbol0])
      | Raydium =>
          token_address ← address_on addresses "solana";
          Some (get_price exchange [token_address; token_symbol0])
      | _ => None
      end
  | CEX => Some (get_price exchange [token_symbol0])
  end.

(** [asyncio.gather] over the tasks with [return_exceptions=True]: the
    outcomes in the order of the tasks, an exception being an element of the
    list. *)
Definition gather (tasks : list (result (ExchangePrice N)))
  : list (result (ExchangePrice N)) := tasks.

(** [for price in prices]: a quote is kept, an exception is logged. *)
Definition keep_quote (outcome : result (ExchangePrice N)) : option (ExchangePrice N) :=
  match outcome with
  | Return quote => Some quote
  | Raise _ => None
  end.

(** [PriceChecker.get_token_prices] *)
Definition get_token_prices (self : PriceChecker) (token : string)
  : M (TokenResolver Env) (list (ExchangePrice N)) :=
  token_info ← search_token Env http_get time_time env_sleep token;
  match token_info with
  | None => mret []
  | Some token_info =>
      let token_symbol0 := info_symbol token_info in
      let addresses := info_platforms token_info in
      let tasks := omap (task_for token_symbol0 addresses) (exchanges self) in
      match tasks with
      | [] => mret []
      | _ :: _ =>
          let prices0 := gather tasks in
          mret (omap keep_quote prices0)
      end
  end.

(** [PriceChecker.check_token_price] *)
Definition check_token_price (self : PriceChecker) (token : string)
  : M (TokenResolver Env) (Analysis N) :=
  prices0 ← get_token_prices self token;
  lift (analyze_prices (min_price_difference_percent self) prices0).

End Checker.

(** An entry of the mapping [check_multiple_tokens] returns: an analysis or
    [{'error': str(e)}]. *)
Inductive Entry (A : Type) : Type :=
| AnalysisEntry (a : A)
| ErrorEntry (msg : string).
Arguments AnalysisEntry {A} a.
Arguments ErrorEntry {A} msg.

Section CheckMultiple.
Context {S A : Type}.
(** [self.check_token_price] *)
Variable self_check_token_price : string → M S A.

(** [for token in tokens] *)
Fixpoint check_tokens_loop (tokens : list string) (results : gmap string (Entry A))
  : M S (gmap string (Entry A)) :=
  match tokens with
  | [] => mret results
  | token :: tokens' =>
      results' ← try_except
        (a ← self_check_token_price token;
         mret (<[token := AnalysisEntry a]> results))
        (λ e, mret (<[token := ErrorEntry (str e)]> results));
      check_tokens_loop tokens' results'
  end.

(** [PriceChecker.check_multiple_tokens] *)
Definition check_multiple_tokens (tokens : list string) : M S (gmap string (Entry A)) :=
  check_tokens_loop tokens ∅.

(** The computations of the loop, one after the other: each token with the
    outcome of its check, and the world after the last one. *)
Fixpoint checks_run (tokens : list string) (s : S) : list (string * result A) * S :=
  match tokens with
  | [] => ([], s)
  | token :: tokens' =>
      let '(r, s') := self_check_token_price token s in
      let '(rest, s'') := checks_run tokens' s' in
      ((token, r) :: rest, s'')
  end.

Definition entry_of (r : result A) : Entry A :=
  match r with
  | Return a => AnalysisEntry a
  | Raise e => ErrorEntry (str e)
  end.

End CheckMultiple.

(** * Properties *)

(** ** The analyzer never raises *)

Section AnalyzerFacts.
Context {N : Number}.
Implicit Types (p : ExchangePrice N) (x : num).

Definition positive (x : num) : Prop := nltb nzero x = true.

Lemma is_valid_price p :
  is_valid p = true → ∃ x, price p = Some x ∧ positive x ∧ error p = None.
Proof.
  unfold is_valid. destruct (price p) as [x|]; [|done].
  intros [Hpos Herr%bool_decide_eq_true]%andb_true_iff. by exists x.
Qed.

Lemma price_value_valid p :
  is_valid p = true → ∃ x, price_value p = Return x ∧ price p = Some x ∧ positive x.
Proof.
  intros (x & Hp & Hx & _)%is_valid_price. exists x.
  unfold price_value. by rewrite Hp.
Qed.

Lemma div_positive x y : positive y → div x y = Return (ndiv_raw x y).
Proof. intros Hy. unfold div. by rewrite (pos_nonzero y Hy). Qed.

Lemma calculate_price_difference_zero x y :
  neqb y nzero = true → calculate_price_difference x y = Return nzero.
Proof. intros Hy. unfold calculate_price_difference. by rewrite Hy. Qed.

Lemma calculate_price_difference_returns x y :
  ∃ d, calculate_price_difference x y = Return d.
Proof.
  unfold calculate_price_difference, div.
  destruct (neqb y nzero); eauto.
Qed.

Lemma calculate_price_difference_positive x y :
  positive y →
  calculate_price_difference x y = Return (nmul (ndiv_raw (nsub x y) y) nhundred).
Proof.
  intros Hy. unfold calculate_price_difference, div.
  by rewrite (pos_nonzero y Hy).
Qed.

Lemma mapM_price_value (l : list (ExchangePrice N)) :
  Forall (λ p, is_valid p = true) l →
  ∃ xs, mapM price_value l = Return xs
        ∧ Forall2 (λ p x, price p = Some x) l xs ∧ Forall positive xs.
Proof.
  induction 1 as [|p l Hp _ (xs & Hxs & H2 & Hpos)].
  - exists []. by repeat split.
  - destruct (price_value_valid p Hp) as (x & Hx & Hpx & Hxpos).
    exists (x :: xs). cbn. rewrite Hx. cbn. rewrite Hxs. cbn.
    repeat split; by constructor.
Qed.

Lemma fold_left_choice (f : num → num → num) (P : num → Prop) (l : list num) x :
  (∀ a b, f a b = a ∨ f a b = b) → P x → Forall P l → P (fold_left f l x).
Proof.
  intros Hf. revert x. induction l as [|y l IH]; intros x Hx Hl; [done|].
  inversion_clear Hl. cbn. apply IH; [|done].
  by destruct (Hf x y) as [-> | ->].
Qed.

Lemma py_min_positive (l : list num) :
  l ≠ [] → Forall positive l → ∃ m, py_min l = Return m ∧ positive m.
Proof.
  destruct l as [|x l]; [done|]. intros _ Hl. inversion_clear Hl.
  eexists. split; [done|]. apply fold_left_choice; [|done..].
  intros a b. destruct (nltb b a); auto.
Qed.

Lemma py_max_positive (l : list num) :
  l ≠ [] → Forall positive l → ∃ m, py_max l = Return m ∧ positive m.
Proof.
  destruct l as [|x l]; [done|]. intros _ Hl. inversion_clear Hl.
  eexists. split; [done|]. apply fold_left_choice; [|done..].
  intros a b. destruct (nltb a b); auto.
Qed.

(** What the loop body does on two valid quotes. *)
Lemma find_opportunity_valid (min_diff : num) (a b : ExchangePrice N) :
  is_valid a = true → is_valid b = true →
  ∃ pa pb, price a = Some pa ∧ price b = Some pb ∧ positive pa ∧ positive pb ∧
    find_opportunity min_diff a b =
      Return
        (if nleb min_diff (nabs (nmul (ndiv_raw (nsub pa pb) pb) nhundred)) then
           Some (let '(buy, sell) :=
                   if nltb pa pb then (a, pa, (b, pb)) else (b, pb, (a, pa)) in
                 {| buy_exchange := exchange_name buy.1;
                    sell_exchange := exchange_name sell.1;
                    buy_price := buy.2;
                    sell_price := sell.2;
                    price_difference_percent :=
                      nabs (nmul (ndiv_raw (nsub pa pb) pb) nhundred);
                    potential_profit_percent :=
                      nmul (ndiv_raw (nsub sell.2 buy.2) buy.2) nhundred |})
         else None).
Proof.
  intros (pa & Ha & Hpa & Hposa)%price_value_valid
         (pb & Hb & Hpb & Hposb)%price_value_valid.
  exists pa, pb. repeat split; try done.
  unfold find_opportunity. rewrite Ha, Hb. cbn.
  rewrite (calculate_price_difference_positive _ _ Hposb). cbn.
  destruct (nleb min_diff _); [|done].
  destruct (nltb pa pb); cbn; by rewrite div_positive.
Qed.

Lemma find_opportunity_buy_positive (min_diff : num) (a b : ExchangePrice N) :
  is_valid a = true → is_valid b = true →
  ∃ o, find_opportunity min_diff a b = Return o
       ∧ ∀ opp, o = Some opp → positive (buy_price opp).
Proof.
  intros Ha Hb.
  destruct (find_opportunity_valid min_diff a b Ha Hb)
    as (pa & pb & _ & _ & Hpa & Hpb & ->).
  eexists. split; [done|]. intros opp.
  destruct (nleb min_diff _); [|done].
  intros [= <-]. by destruct (nltb pa pb).
Qed.

Lemma scan_row_returns (min_diff : num) (a : ExchangePrice N) rest :
  is_valid a = true → Forall (λ p, is_valid p = true) rest →
  ∃ row, scan_row min_diff a rest = Return row
         ∧ Forall (λ opp, positive (buy_price opp)) row.
Proof.
  intros Ha. induction 1 as [|b rest Hb _ (row & Hrow & Hpos)].
  - by exists [].
  - destruct (find_opportunity_buy_positive min_diff a b Ha Hb) as (o & Ho & Hbuy).
    exists (option_list o ++ row). cbn. rewrite Ho. cbn. rewrite Hrow. cbn.
    split; [done|]. apply Forall_app. split; [|done].
    destruct o as [opp|]; cbn; [|done]. constructor; [by apply Hbuy|done].
Qed.

Lemma scan_pairs_returns (min_diff : num) (valid : list (ExchangePrice N)) :
  Forall (λ p, is_valid p = true) valid →
  ∃ found, scan_pairs min_diff valid = Return found
           ∧ Forall (λ opp, positive (buy_price opp)) found.
Proof.
  induction 1 as [|a rest Ha Hrest (more & Hmore & Hpos)].
  - by exists [].
  - destruct (scan_row_returns min_diff a rest Ha Hrest) as (row & Hrow & Hrpos).
    exists (row ++ more). cbn. rewrite Hrow. cbn. rewrite Hmore. cbn.
    split; [done|]. by apply Forall_app.
Qed.

Lemma insert_by_profit_perm (x : ArbitrageOpportunity N) l :
  insert_by_profit x l ≡ₚ x :: l.
Proof.
  induction l as [|y l IH]; [done|]. cbn.
  destruct (nltb _ _); [|done]. rewrite IH. apply Permutation_swap.
Qed.

Lemma sort_by_profit_perm (l : list (ArbitrageOpportunity N)) :
  sort_by_profit l ≡ₚ l.
Proof.
  induction l as [|x l IH]; [done|]. cbn.
  rewrite insert_by_profit_perm. by constructor.
Qed.

Lemma valid_prices_valid (prices0 : list (ExchangePrice N)) :
  Forall (λ p, is_valid p = true) (filter (λ p, is_valid p) prices0).
Proof.
  apply Forall_forall. intros p [Hp _]%list_elem_of_filter.
  by apply Is_true_true.
Qed.

(** [analyze_prices] returns, and its opportunities are the sorted result of
    the pairwise scan of the valid quotes. *)
Lemma analyze_prices_returns (min_diff : num) (prices0 : list (ExchangePrice N)) :
  ∃ found r,
    scan_pairs min_diff (filter (λ p, is_valid p) prices0) = Return found
    ∧ Forall (λ opp, positive (buy_price opp)) found
    ∧ analyze_prices min_diff prices0 = Return r
    ∧ opportunities r = sort_by_profit found
    ∧ valid_count r = length (filter (λ p, is_valid p) prices0)
    ∧ (∀ m, min_price r = Some m → positive m).
Proof.
  unfold analyze_prices.
  pose proof (valid_prices_valid prices0) as Hvalid.
  destruct (filter (λ p, is_valid p) prices0) as [|v valid] eqn:Hf.
  { exists []. eexists. by repeat split. }
  destruct (mapM_price_value _ Hvalid) as (xs & -> & H2 & Hpos).
  assert (xs ≠ []) as Hne by (inversion H2; done).
  destruct (py_min_positive xs Hne Hpos) as (mn & Hmn & Hmnpos).
  destruct (py_max_positive xs Hne Hpos) as (mx & Hmx & _).
  destruct (scan_pairs_returns min_diff _ Hvalid) as (found & -> & Hbuy).
  exists found. cbn. rewrite Hmn. cbn. rewrite Hmx. cbn.
  unfold div_int. destruct xs as [|x xs]; [done|]. cbn.
  rewrite (div_positive _ _ Hmnpos). cbn.
  eexists. repeat split; [done|]. cbn. by intros m [= <-].
Qed.

End AnalyzerFacts.

(** ** Claims about the analyzer *)

(** A quote that is not valid, said with its fields. *)
Definition unusable {N : Number} (p : ExchangePrice N) : Prop :=
  price p = None ∨ (∃ x, price p = Some x ∧ nltb nzero x = false) ∨ error p ≠ None.

Lemma unusable_not_valid {N : Number} (p : ExchangePrice N) :
  unusable p → is_valid p = false.
Proof.
  unfold is_valid. intros [Hp | [(x & Hp & Hx) | He]]; rewrite ?Hp, ?Hx; try done.
  destruct (price p); [|done]. rewrite bool_decide_eq_false_2; [|done].
  apply andb_false_r.
Qed.

(** Two quotes used as concrete inputs: a quote with a price, and the quote
    [Exchange._create_error_price] builds. *)
Definition priced {N : Number} (venue : string) (x : num) : ExchangePrice N :=
  {| exchange_name := venue; exchange_type := CEX; price := Some x;
     token_symbol := "SOL"; chain := None; trading_pair := Some "SOL/USDT";
     liquidity := None; error := None |}.

Definition _create_error_price {N : Number} (venue : string) (kind : ExchangeType)
    (token_symbol0 error0 : string) : ExchangePrice N :=
  {| exchange_name := venue; exchange_type := kind; price := None;
     token_symbol := token_symbol0; chain := None; trading_pair := None;
     liquidity := None; error := Some error0 |}.

(** C5: when no quote of the input is valid (each has no price, a price that
    is not above zero, or an error), [analyze_prices] returns normally: the
    valid count is 0, the dictionary has no statistics, and the list of
    opportunities is empty. *)
Theorem analyze_prices_no_valid_quote {N : Number} (min_diff : num)
    (prices0 : list (ExchangePrice N)) :
  Forall unusable prices0 →
  analyze_prices min_diff prices0 =
    Return {| count := 0; valid_count := 0; error_count := length prices0;
              min_price := None; max_price := None; avg_price := None;
              spread_percent := None; prices := prices0; opportunities := [] |}.
Proof.
  intros Hall. unfold analyze_prices.
  assert (filter (λ p, is_valid p) prices0 = []) as ->; [|done].
  induction Hall as [|p l Hp _ IH]; [done|].
  rewrite filter_cons, IH. rewrite (unusable_not_valid p Hp).
  by destruct (decide _).
Qed.

Lemma analyze_prices_no_valid_quote_witness :
  analyze_prices (N := FloatNumber) 0.5%float
    [_create_error_price "Binance" CEX "SOL" "No trading pairs found";
     priced (N := FloatNumber) "Bybit" 0%float] =
  Return {| count := 0; valid_count := 0; error_count := 2;
            min_price := None; max_price := None; avg_price := None;
            spread_percent := None;
            prices := [_create_error_price "Binance" CEX "SOL" "No trading pairs found";
                       priced (N := FloatNumber) "Bybit" 0%float];
            opportunities := [] |}.
Proof.
  apply (analyze_prices_no_valid_quote (N := FloatNumber)).
  apply Forall_cons_2; [|apply Forall_cons_2; [|apply Forall_nil_2]].
  - right. right. simpl. discriminate.
  - right. left. eexists. split; reflexivity.
Defined.

(** C9: [analyze_prices] returns for every list of quotes and never raises:
    [calculate_price_difference] returns 0 when its second price is 0 and
    never divides by zero, and the divisors of the spread and of the profit,
    the minimum price and the buy price, are above zero. *)
Theorem analyze_prices_total {N : Number} (min_diff : num)
    (prices0 : list (ExchangePrice N)) :
  (∀ p1 p2 : num, neqb p2 nzero = true →
     calculate_price_difference p1 p2 = Return nzero)
  ∧ (∀ p1 p2 : num, ∃ d, calculate_price_difference p1 p2 = Return d)
  ∧ ∃ r, analyze_prices min_diff prices0 = Return r
       ∧ (∀ m, min_price r = Some m → positive m)
       ∧ (∀ opp, opp ∈ opportunities r → positive (buy_price opp)).
Proof.
  split; [apply calculate_price_difference_zero|].
  split; [apply calculate_price_difference_returns|].
  destruct (analyze_prices_returns min_diff prices0)
    as (found & r & _ & Hbuy & Hr & Hopp & _ & Hmin).
  exists r. repeat split; [done..|].
  intros opp Hin. rewrite Hopp, sort_by_profit_perm in Hin.
  by eapply Forall_forall in Hbuy.
Qed.

(** C8: three valid quotes priced 100.00, 101.00 and 105.00, in any order,
    with the threshold 0.5: [analyze_prices], computed in binary64, returns
    exactly 3 opportunities, and the first one buys at 100.00 (from the quote
    priced 100.00), sells at 105.00 (to the quote priced 105.00) and has the
    profit 5.00 percent. *)
Theorem analyze_prices_100_101_105 (q1 q2 q3 : ExchangePrice FloatNumber)
    (quotes : list (ExchangePrice FloatNumber)) :
  price q1 = Some 100%float → error q1 = None →
  price q2 = Some 101%float → error q2 = None →
  price q3 = Some 105%float → error q3 = None →
  quotes ≡ₚ [q1; q2; q3] →
  ∃ r best others,
    analyze_prices (N := FloatNumber) 0.5%float quotes = Return r
    ∧ valid_count r = 3
    ∧ opportunities r = best :: others
    ∧ length (opportunities r) = 3
    ∧ buy_exchange best = exchange_name q1
    ∧ sell_exchange best = exchange_name q3
    ∧ buy_price best = 100%float
    ∧ sell_price best = 105%float
    ∧ potential_profit_percent best = 5%float.
Proof.
  intros Hp1 He1 Hp2 He2 Hp3 He3 Hperm.
  symmetry in Hperm. apply permutations_Permutation in Hperm.
  destruct q1, q2, q3. simpl in *. subst.
  vm_compute in Hperm.
  repeat (apply elem_of_cons in Hperm as [-> | Hperm]);
    [..|by apply elem_of_nil in Hperm];
    vm_compute; do 3 eexists; repeat split.
Qed.

Lemma analyze_prices_100_101_105_witness :
  ∃ (r : Analysis FloatNumber) best others,
    analyze_prices (N := FloatNumber) 0.5%float
      [priced (N := FloatNumber) "Binance" 100%float; priced (N := FloatNumber) "Bybit" 101%float;
       priced (N := FloatNumber) "Raydium" 105%float] = Return r
    ∧ valid_count r = 3
    ∧ opportunities r = best :: others
    ∧ length (opportunities r) = 3
    ∧ buy_exchange best = "Binance"
    ∧ sell_exchange best = "Raydium"
    ∧ buy_price best = 100%float
    ∧ sell_price best = 105%float
    ∧ potential_profit_percent best = 5%float.
Proof.
  apply (analyze_prices_100_101_105
           (priced (N := FloatNumber) "Binance" 100%float) (priced (N := FloatNumber) "Bybit" 101%float)
           (priced (N := FloatNumber) "Raydium" 105%float));
    reflexivity.
Defined.

(** ** The order of the opportunities (exact prices) *)

Section SortFacts.
Implicit Types (o : ArbitrageOpportunity QNumber) (l : list (ArbitrageOpportunity QNumber)).

(** [a] may stand before [b] in a list in descending order of profit. *)
Definition profit_ge (a b : ArbitrageOpportunity QNumber) : Prop :=
  (potential_profit_percent b <= potential_profit_percent a)%Q.

(** The opportunities of a list whose profit equals [v], in their order. *)
Definition with_profit (v : Q) l : list (ArbitrageOpportunity QNumber) :=
  filter (λ o, Qeq_bool (potential_profit_percent o) v) l.

Lemma profit_ge_trans a b c : profit_ge a b → profit_ge b c → profit_ge a c.
Proof. unfold profit_ge. intros Hab Hbc. by eapply Qle_trans. Qed.

Lemma insert_by_profit_sorted x l :
  StronglySorted profit_ge l → StronglySorted profit_ge (insert_by_profit x l).
Proof.
  induction 1 as [|y l Hl IH Hy]; cbn.
  { repeat constructor. }
  change (nltb (potential_profit_percent x) (potential_profit_percent y))
    with (Qltb (potential_profit_percent x) (potential_profit_percent y)).
  destruct (Qltb _ _) eqn:E.
  - apply Qltb_lt, Qlt_le_weak in E.
    constructor; [done|]. rewrite insert_by_profit_perm. by constructor.
  - apply Qltb_ge in E. constructor; [by constructor|].
    constructor; [done|].
    eapply Forall_impl; [exact Hy|]. intros z Hz.
    by apply (profit_ge_trans x y z).
Qed.

Lemma sort_by_profit_sorted l : StronglySorted profit_ge (sort_by_profit l).
Proof.
  induction l as [|x l IH]; cbn; [constructor|].
  by apply insert_by_profit_sorted.
Qed.

Lemma with_profit_insert v x l :
  with_profit v (insert_by_profit x l) = with_profit v (x :: l).
Proof.
  unfold with_profit. induction l as [|y l IH]; [done|]. cbn.
  change (nltb (potential_profit_percent x) (potential_profit_percent y))
    with (Qltb (potential_profit_percent x) (potential_profit_percent y)).
  destruct (Qltb _ _) eqn:E; [|done].
  apply Qltb_lt in E.
  rewrite (filter_cons _ y), IH, !filter_cons.
  destruct (decide (Qeq_bool (potential_profit_percent x) v)) as [Hx|Hx];
    [|done].
  destruct (decide (Qeq_bool (potential_profit_percent y) v)) as [Hy|Hy];
    [|done].
  apply Is_true_true, Qeq_bool_iff in Hx, Hy.
  rewrite Hx, Hy in E. by apply Qlt_irrefl in E.
Qed.

Lemma with_profit_sort v l : with_profit v (sort_by_profit l) = with_profit v l.
Proof.
  induction l as [|x l IH]; [done|].
  change (sort_by_profit (x :: l)) with (insert_by_profit x (sort_by_profit l)).
  rewrite with_profit_insert. unfold with_profit in *.
  by rewrite !filter_cons, IH.
Qed.

End SortFacts.

(** C7: the opportunities [analyze_prices] returns are the opportunities of
    the pairwise scan, in descending order of profit, and those of equal
    profit stand in the order in which the scan found them. *)
Theorem analyze_prices_opportunities_sorted (min_diff : Q)
    (prices0 : list (ExchangePrice QNumber)) :
  ∃ found r,
    scan_pairs min_diff (filter (λ p, is_valid p) prices0) = Return found
    ∧ analyze_prices min_diff prices0 = Return r
    ∧ opportunities r ≡ₚ found
    ∧ StronglySorted profit_ge (opportunities r)
    ∧ ∀ v : Q, with_profit v (opportunities r) = with_profit v found.
Proof.
  destruct (analyze_prices_returns (N := QNumber) min_diff prices0)
    as (found & r & Hscan & _ & Hr & Hopp & _).
  exists found, r. rewrite Hopp. repeat split; [done..| | |].
  - apply sort_by_profit_perm.
  - apply sort_by_profit_sorted.
  - intros v. apply with_profit_sort.
Qed.

(** ** Which pairs yield an opportunity *)

(** The unordered pairs of a list: an element with each later element. *)
Fixpoint pairs_of {A : Type} (l : list A) : list (A * A) :=
  match l with
  | [] => []
  | a :: l' => ((λ b, (a, b)) <$> l') ++ pairs_of l'
  end.

Lemma elem_of_pairs_of {A : Type} (l : list A) (a b : A) :
  (a, b) ∈ pairs_of l ↔ ∃ i j, i < j ∧ l !! i = Some a ∧ l !! j = Some b.
Proof.
  induction l as [|c l IH]; cbn.
  { split; [by intros ?%elem_of_nil|]. by intros (i & j & _ & ? & _). }
  rewrite elem_of_app, list_elem_of_fmap, IH. split.
  - intros [(b' & [= -> ->] & (j & Hj)%list_elem_of_lookup)
           | (i & j & Hij & Hi & Hj)].
    + exists 0, (S j). repeat split; [lia|done..].
    + exists (S i), (S j). repeat split; [lia|done..].
  - intros (i & j & Hij & Hi & Hj). destruct j as [|j]; [lia|].
    destruct i as [|i]; cbn in *.
    + left. exists b. split; [congruence|]. by eapply list_elem_of_lookup_2.
    + right. exists i, j. repeat split; [lia|done..].
Qed.

(** What one pair contributes to the list of opportunities. *)
Definition emitted_for {N : Number} (min_diff : num)
    (ab : ExchangePrice N * ExchangePrice N) : list (ArbitrageOpportunity N) :=
  match find_opportunity min_diff ab.1 ab.2 with
  | Return o => option_list o
  | Raise _ => []
  end.

Lemma scan_row_emitted {N : Number} (min_diff : num) (a : ExchangePrice N) rest :
  is_valid a = true → Forall (λ p, is_valid p = true) rest →
  scan_row min_diff a rest = Return (((λ b, (a, b)) <$> rest) ≫= emitted_for min_diff).
Proof.
  intros Ha. induction 1 as [|b rest Hb _ IH]; [done|].
  destruct (find_opportunity_buy_positive min_diff a b Ha Hb) as (o & Ho & _).
  cbn. rewrite Ho. cbn. rewrite IH. cbn.
  unfold emitted_for at 2. cbn. by rewrite Ho.
Qed.

Lemma scan_pairs_emitted {N : Number} (min_diff : num) (valid : list (ExchangePrice N)) :
  Forall (λ p, is_valid p = true) valid →
  scan_pairs min_diff valid = Return (pairs_of valid ≫= emitted_for min_diff).
Proof.
  induction 1 as [|a rest Ha Hrest IH]; [done|].
  cbn. rewrite (scan_row_emitted _ _ _ Ha Hrest). cbn. rewrite IH. cbn.
  by rewrite bind_app.
Qed.

(** The difference the code compares with the threshold, for a second price
    above zero. *)
Lemma Qabs_percent (pa pb : Q) :
  (0 < pb)%Q →
  (Qabs ((pa - pb) / pb * 100) == Qabs (pa - pb) / pb * 100)%Q.
Proof.
  intros Hpb. unfold Qdiv.
  rewrite !Qabs_Qmult, Qabs_Qinv.
  rewrite (Qabs_pos pb) by (by apply Qlt_le_weak).
  by rewrite (Qabs_pos 100).
Qed.

(** C3 (as amended): the opportunities [analyze_prices] returns are, up to
    their order, what the unordered pairs of valid quotes contribute, and the
    pair of the valid quotes at the positions [i < j] contributes one
    opportunity if and only if
    [|price_i - price_j| / price_j * 100 >= min_diff], the divisor being the
    price of the later quote of the pair; otherwise it contributes nothing. *)
Theorem analyze_prices_emits_iff (min_diff : Q)
    (prices0 : list (ExchangePrice QNumber)) :
  ∃ r,
    analyze_prices min_diff prices0 = Return r
    ∧ opportunities r ≡ₚ pairs_of (filter (λ p, is_valid p) prices0) ≫= emitted_for min_diff
    ∧ ∀ i j a b,
        i < j →
        filter (λ p, is_valid p) prices0 !! i = Some a →
        filter (λ p, is_valid p) prices0 !! j = Some b →
        ∃ pa pb, price a = Some pa ∧ price b = Some pb
          ∧ ((∃ o, emitted_for min_diff (a, b) = [o])
             ↔ (min_diff <= Qabs (pa - pb) / pb * 100)%Q)
          ∧ (¬ (min_diff <= Qabs (pa - pb) / pb * 100)%Q →
             emitted_for min_diff (a, b) = []).
Proof.
  destruct (analyze_prices_returns (N := QNumber) min_diff prices0)
    as (found & r & Hscan & _ & Hr & Hopp & _).
  pose proof (valid_prices_valid prices0) as Hvalid.
  rewrite (scan_pairs_emitted _ _ Hvalid) in Hscan. injection Hscan as <-.
  exists r. split; [done|]. split.
  { rewrite Hopp. apply sort_by_profit_perm. }
  intros i j a b _ Hi Hj.
  rewrite Forall_forall in Hvalid.
  assert (is_valid a = true) as Ha by (eapply Hvalid, list_elem_of_lookup_2, Hi).
  assert (is_valid b = true) as Hb by (eapply Hvalid, list_elem_of_lookup_2, Hj).
  destruct (find_opportunity_valid (N := QNumber) min_diff a b Ha Hb)
    as (pa & pb & Hpa & Hpb & _ & Hpos & Hfind).
  exists pa, pb. split; [done|]. split; [done|].
  unfold emitted_for. cbn [fst snd]. rewrite Hfind.
  apply Qltb_lt in Hpos.
  change (@nleb QNumber) with Qle_bool. change (@nabs QNumber) with Qabs.
  change (@nmul QNumber) with Qmult. change (@ndiv_raw QNumber) with Qdiv.
  change (@nsub QNumber) with Qminus. change (@nhundred QNumber) with 100%Q.
  change (@num QNumber) with Q in pa, pb.
  rewrite <- (Qabs_percent pa pb Hpos).
  destruct (Qle_bool _ _) eqn:E.
  - apply Qle_bool_iff in E. split; [|done]. split; [done|]. intros _. eauto.
  - assert (¬ (min_diff <= Qabs ((pa - pb) / pb * 100))%Q) as Hn.
    { intros Hle%Qle_bool_iff. congruence. }
    split; [|done]. split; [by intros [o ?]|done].
Qed.

(** C3 (as stated) fails: for the quotes priced 100 and 100.5 and the
    threshold 0.5 the difference over the smaller price is 0.5 percent, which
    reaches the threshold, and yet the pair contributes nothing and the list
    of opportunities is empty, in exact arithmetic and in binary64. *)
Lemma analyze_prices_min_criterion_counterexample :
  (0.5 <= Qabs (100 - 100.5) / Qmin 100 100.5 * 100)%Q
  ∧ emitted_for (N := QNumber) 0.5%Q
      (priced (N := QNumber) "Binance" 100%Q, priced (N := QNumber) "Bybit" 100.5%Q) = []
  ∧ (∃ r, analyze_prices (N := QNumber) 0.5%Q
            [priced (N := QNumber) "Binance" 100%Q; priced (N := QNumber) "Bybit" 100.5%Q] = Return r
          ∧ valid_count r = 2 ∧ opportunities r = [])
  ∧ (∃ r, analyze_prices (N := FloatNumber) 0.5%float
            [priced (N := FloatNumber) "Binance" 100%float; priced (N := FloatNumber) "Bybit" 100.5%float] = Return r
          ∧ valid_count r = 2 ∧ opportunities r = []).
Proof.
  split; [by vm_compute|].
  split; [by vm_compute|].
  split; eexists; (split; [vm_compute; reflexivity|by split]).
Qed.

(** ** The retry wrapper *)

Section RetryFacts.
Context {S T : Type}.
Implicit Types (func : M S T) (s : S) (tr : list Event).

Definition fails_at func s (i : nat) : Prop :=
  ∃ e, (outcome_at func s i).1 = Raise e.

(** The marks left from the attempt [a] (from 0) on, when [k] attempts fail
    and one more is made. *)
Definition trace_from (delay : Q) (a k : nat) : list Event :=
  flat_map (λ j, [Invoked; Slept (delay * inject_Z (Z.of_nat j))%Q]) (seq (a + 1) k)
  ++ [Invoked].

Lemma trace_from_0 delay k : trace_from delay 0 k = backoff_trace delay k.
Proof. done. Qed.

Lemma trace_from_S delay a k :
  trace_from delay a (Datatypes.S k) =
  [Invoked; Slept (delay * inject_Z (Z.of_nat (a + 1)))%Q]
  ++ trace_from delay (Datatypes.S a) k.
Proof. unfold trace_from. cbn. by replace (Datatypes.S (a + 1)) with (Datatypes.S a + 1) by lia. Qed.

Lemma invocations_app tr1 tr2 :
  invocations (tr1 ++ tr2) = invocations tr1 + invocations tr2.
Proof. unfold invocations. by rewrite filter_app, length_app. Qed.

Lemma invocations_trace_from delay a k :
  invocations (trace_from delay a k) = Datatypes.S k.
Proof.
  revert a. induction k as [|k IH]; intros a; [done|].
  rewrite trace_from_S, invocations_app, IH. done.
Qed.

Lemma sleeps_trace_from delay a k :
  sleeps (trace_from delay a k) =
  (λ j, (delay * inject_Z (Z.of_nat j))%Q) <$> seq (a + 1) k.
Proof.
  revert a. induction k as [|k IH]; intros a; [done|].
  rewrite trace_from_S. cbn. unfold sleeps in IH. rewrite IH.
  by replace (Datatypes.S a + 1) with (Datatypes.S (a + 1)) by lia.
Qed.

(** One turn of the loop. *)
Lemma retry_loop_step (m : nat) delay func a attempts last tr s :
  retry_loop observed_sleep m delay (observed func) (a :: attempts) last (tr, s) =
  match func s with
  | (Return v, s') => (Return v, (tr ++ [Invoked], s'))
  | (Raise e, s') =>
      retry_loop observed_sleep m delay (observed func) attempts (Some e)
        (if a <? m - 1
         then ((tr ++ [Invoked]) ++ [Slept (delay * inject_Z (Z.of_nat (a + 1)))%Q], s')
         else (tr ++ [Invoked], s'))
  end.
Proof.
  cbn [retry_loop]. unfold try_except, observed.
  destruct (func s) as [[v|e] s']; [done|].
  unfold mbind, M_bind. by destruct (a <? m - 1).
Qed.

(** The first success ends the loop. *)
Lemma retry_loop_success (m : nat) delay func n : ∀ a last tr s k v,
  a + n = m → k < n →
  (∀ i, i < k → fails_at func s i) →
  (outcome_at func s k).1 = Return v →
  retry_loop observed_sleep m delay (observed func) (seq a n) last (tr, s) =
    (Return v, (tr ++ trace_from delay a k, (outcome_at func s k).2)).
Proof.
  induction n as [|n IH]; intros a last tr s k v Ham Hk Hfail Hv; [lia|].
  cbn [seq]. rewrite retry_loop_step.
  destruct k as [|k].
  - cbn [outcome_at] in Hv |- *. destruct (func s) as [[v'|e] s']; cbn [fst snd] in *; [|done].
    by injection Hv as ->.
  - destruct (Hfail 0 ltac:(lia)) as [e He]. cbn [outcome_at] in He, Hv |- *.
    destruct (func s) as [[v'|e'] s'] eqn:Hf; cbn [fst snd] in *; [done|].
    assert ((a <? m - 1) = true) as -> by (apply Nat.ltb_lt; lia).
    rewrite (IH (Datatypes.S a) _ _ s' k v); [|lia|lia| |done].
    + rewrite trace_from_S. by rewrite <- !app_assoc.
    + intros i Hi. specialize (Hfail (Datatypes.S i) ltac:(lia)).
      unfold fails_at in *. cbn [outcome_at] in Hfail. by rewrite Hf in Hfail.
Qed.

(** When every attempt fails the last exception is raised, and no sleep
    follows the last attempt. *)
Lemma retry_loop_exhausted (m : nat) delay func n : ∀ a last tr s e,
  a + Datatypes.S n = m →
  (∀ i, i < n → fails_at func s i) →
  (outcome_at func s n).1 = Raise e →
  retry_loop observed_sleep m delay (observed func) (seq a (Datatypes.S n)) last (tr, s) =
    (Raise e, (tr ++ trace_from delay a n, (outcome_at func s n).2)).
Proof.
  induction n as [|n IH]; intros a last tr s e Ham Hfail He;
    cbn [seq]; rewrite retry_loop_step.
  - cbn [outcome_at] in He |- *. destruct (func s) as [[v'|e'] s']; cbn [fst snd] in *; [done|].
    injection He as ->.
    assert ((a <? m - 1) = false) as -> by (apply Nat.ltb_ge; lia). done.
  - destruct (Hfail 0 ltac:(lia)) as [e0 He0]. cbn [outcome_at] in He0, He |- *.
    destruct (func s) as [[v'|e'] s'] eqn:Hf; cbn [fst snd] in *; [done|].
    assert ((a <? m - 1) = true) as -> by (apply Nat.ltb_lt; lia).
    rewrite (IH (Datatypes.S a) _ _ s' e); [|lia| |done].
    + rewrite trace_from_S. by rewrite <- !app_assoc.
    + intros i Hi. specialize (Hfail (Datatypes.S i) ltac:(lia)).
      unfold fails_at in *. cbn [outcome_at] in Hfail. by rewrite Hf in Hfail.
Qed.

(** The loop makes at most as many invocations as it has attempts. *)
Lemma retry_loop_invocations (m : nat) delay func n : ∀ a last tr s,
  invocations
    (retry_loop observed_sleep m delay (observed func) (seq a n) last (tr, s)).2.1
  ≤ invocations tr + n.
Proof.
  induction n as [|n IH]; intros a last tr s.
  - destruct last; cbn [seq retry_loop]; unfold raise; cbn [fst snd]; lia.
  - cbn [seq]. rewrite retry_loop_step.
    destruct (func s) as [[v|e] s'].
    + cbn [fst snd]. rewrite invocations_app.
      change (invocations [Invoked]) with 1. lia.
    + destruct (a <? m - 1); (etrans; [apply IH|]);
        rewrite !invocations_app;
        change (invocations [Invoked]) with 1;
        change (invocations [Slept _]) with 0; lia.
Qed.

End RetryFacts.

(** An operation that fails twice and then returns 42; its world counts the
    invocations. *)
Definition flaky : M nat nat := λ n,
  if n <? 2 then (Raise (Exn "ConnectionError" "timed out"), n + 1)
  else (Return 42, n + 1).

(** C4: the wrapper [retry_on_failure(max_retries = m, delay = d)] with
    [m >= 1] invokes the operation at most [m] times; the first result that
    is not a failure is returned as it is, after exactly the attempts up to
    it; the wrapper sleeps [d * k] after the failed attempt number [k], for
    each failed attempt but the last of the [m]; and when all [m] attempts
    fail, the exception of the last one is raised. *)
Theorem retry_on_failure_linear_backoff {S T : Type} (m : nat) (d : Q)
    (func : M S T) (s : S) :
  1 ≤ m →
  invocations (retry_on_failure observed_sleep m d (observed func) ([], s)).2.1 ≤ m
  ∧ (∀ k v,
       k < m → (∀ i, i < k → fails_at func s i) →
       (outcome_at func s k).1 = Return v →
       retry_on_failure observed_sleep m d (observed func) ([], s) =
         (Return v, (backoff_trace d k, (outcome_at func s k).2))
       ∧ invocations (backoff_trace d k) = k + 1
       ∧ sleeps (backoff_trace d k) =
           (λ j, (d * inject_Z (Z.of_nat j))%Q) <$> seq 1 k)
  ∧ (∀ e,
       (∀ i, i < m - 1 → fails_at func s i) →
       (outcome_at func s (m - 1)).1 = Raise e →
       retry_on_failure observed_sleep m d (observed func) ([], s) =
         (Raise e, (backoff_trace d (m - 1), (outcome_at func s (m - 1)).2))
       ∧ invocations (backoff_trace d (m - 1)) = m
       ∧ sleeps (backoff_trace d (m - 1)) =
           (λ j, (d * inject_Z (Z.of_nat j))%Q) <$> seq 1 (m - 1)).
Proof.
  intros Hm. unfold retry_on_failure. split; [|split].
  - etrans; [apply retry_loop_invocations|]. done.
  - intros k v Hk Hfail Hv. rewrite <- !trace_from_0.
    rewrite invocations_trace_from, sleeps_trace_from.
    split; [|split; [lia|done]].
    by rewrite (retry_loop_success m d func m 0 None [] s k v).
  - intros e Hfail He. rewrite <- !trace_from_0.
    rewrite invocations_trace_from, sleeps_trace_from.
    split; [|split; [lia|done]].
    destruct m as [|n]; [lia|].
    replace (Datatypes.S n - 1) with n in * by lia.
    by rewrite (retry_loop_exhausted (Datatypes.S n) d func n 0 None [] s e).
Qed.

Lemma retry_on_failure_linear_backoff_witness :
  1 ≤ 3
  ∧ retry_on_failure observed_sleep 3 1 (observed flaky) ([], 0) =
      (Return 42, (backoff_trace 1 2, 3)).
Proof.
  split; [lia|].
  apply (proj1 (proj2 (retry_on_failure_linear_backoff 3 1 flaky 0 ltac:(lia))) 2 42).
  - lia.
  - intros i Hi. exists (Exn "ConnectionError" "timed out").
    destruct i as [|[|i]]; [reflexivity|reflexivity|lia].
  - reflexivity.
Defined.

(** ** Checking several tokens *)

(** The mapping after the assignments [results[token] = ...] of the loop, in
    their order. *)
Definition assign_all {A : Type} (runs : list (string * result A))
    (results : gmap string (Entry A)) : gmap string (Entry A) :=
  foldl (λ acc run, <[run.1 := entry_of run.2]> acc) results runs.

Lemma dom_assign_all {A : Type} (runs : list (string * result A)) : ∀ results,
  dom (assign_all runs results) = dom results ∪ list_to_set runs.*1.
Proof.
  induction runs as [|[t r] runs IH]; intros results; cbn.
  - by rewrite (right_id_L ∅ (∪)).
  - unfold assign_all in *. rewrite IH, dom_insert_L.
    by rewrite (comm_L (∪) {[t]}), (assoc_L (∪)).
Qed.

Lemma lookup_assign_all_other {A : Type} (runs : list (string * result A)) token :
  ∀ results, token ∉ runs.*1 → assign_all runs results !! token = results !! token.
Proof.
  induction runs as [|[t r] runs IH]; intros results Hnot; [done|].
  cbn in Hnot. apply not_elem_of_cons in Hnot as [Hne Hnot].
  unfold assign_all in *. cbn. rewrite IH by done. by rewrite lookup_insert_ne.
Qed.

Lemma lookup_assign_all_last {A : Type} before token (r : result A) after results :
  token ∉ after.*1 →
  assign_all (before ++ (token, r) :: after) results !! token = Some (entry_of r).
Proof.
  intros Hnot. unfold assign_all. rewrite foldl_app. cbn.
  fold (assign_all after (<[token:=entry_of r]>
    (foldl (λ acc run, <[run.1:=entry_of run.2]> acc) results before))).
  rewrite lookup_assign_all_other by done. apply lookup_insert_eq.
Qed.

Section CheckMultipleFacts.
Context {S A : Type}.
Variable check : string → M S A.

Lemma check_tokens_loop_run (tokens : list string) : ∀ results s,
  check_tokens_loop check tokens results s =
    (Return (assign_all (checks_run check tokens s).1 results),
     (checks_run check tokens s).2).
Proof.
  induction tokens as [|token tokens IH]; intros results s; [done|].
  cbn [check_tokens_loop checks_run].
  unfold mbind at 1, M_bind at 1, try_except, mbind, M_bind, mret, M_ret.
  destruct (check token s) as [[a|e] s'];
    rewrite IH; by destruct (checks_run check tokens s').
Qed.

Lemma checks_run_tokens (tokens : list string) s :
  (checks_run check tokens s).1.*1 = tokens.
Proof.
  revert s. induction tokens as [|token tokens IH]; intros s; [done|].
  cbn. destruct (check token s) as [r s']. specialize (IH s').
  destruct (checks_run check tokens s'). cbn in *. by rewrite IH.
Qed.

End CheckMultipleFacts.

(** C10: [check_multiple_tokens] returns a mapping for every list of
    queries, whatever [check_token_price] does: it never raises.  The mapping
    has exactly the distinct queries of the list as its keys, and the entry of
    a query is the outcome of the last check made for it: the analysis if
    that check returned, and [{'error': str(e)}] if it raised [e]. *)
Theorem check_multiple_tokens_never_raises {S A : Type}
    (self_check_token_price : string → M S A) (tokens : list string) (s : S) :
  ∃ results,
    check_multiple_tokens self_check_token_price tokens s =
      (Return results, (checks_run self_check_token_price tokens s).2)
    ∧ (checks_run self_check_token_price tokens s).1.*1 = tokens
    ∧ dom results = list_to_set tokens
    ∧ size results = length (remove_dups tokens)
    ∧ (∀ before token r after,
         (checks_run self_check_token_price tokens s).1 = before ++ (token, r) :: after →
         token ∉ after.*1 →
         results !! token = Some (entry_of r))
    ∧ (∀ before token a after,
         (checks_run self_check_token_price tokens s).1 = before ++ (token, Return a) :: after →
         token ∉ after.*1 →
         results !! token = Some (AnalysisEntry a))
    ∧ (∀ before token e after,
         (checks_run self_check_token_price tokens s).1 = before ++ (token, Raise e) :: after →
         token ∉ after.*1 →
         results !! token = Some (ErrorEntry (str e))).
Proof.
  eexists. split; [apply check_tokens_loop_run|].
  pose proof (checks_run_tokens self_check_token_price tokens s) as Htok.
  split; [done|].
  assert (dom (assign_all (checks_run self_check_token_price tokens s).1 ∅)
          =@{gset string} list_to_set tokens) as Hdom.
  { rewrite dom_assign_all, Htok, dom_empty_L. by rewrite (left_id_L ∅ (∪)). }
  split; [done|]. split.
  { rewrite <- size_dom, Hdom.
    rewrite <- (size_list_to_set (C := gset string) (remove_dups tokens))
      by apply NoDup_remove_dups.
    f_equal. apply set_eq. intros x.
    by rewrite !elem_of_list_to_set, elem_of_remove_dups. }
  repeat split; intros before token r after -> Hnot;
    by rewrite lookup_assign_all_last.
Qed.

(** ** The resolver's cache *)

Lemma lower_ascii_idemp (c : ascii) : lower_ascii (lower_ascii c) = lower_ascii c.
Proof. by destruct c as [[] [] [] [] [] [] [] []]. Qed.

Lemma case_variant_lower (q q' : string) : case_variant q q' → lower q = lower q'.
Proof.
  induction 1 as [|c s s' _ IH|c s s' _ _ IH|c s s' _ _ IH]; cbn;
    rewrite ?lower_ascii_idemp; congruence.
Qed.

Section ResolverFacts.
Variable Env : Type.
Variable http_get : string → list (string * string) → Env → result json * Env.
Variable time_time : Env → Q * Env.
Variable env_sleep : Q → Env → Env.
Implicit Types (r : TokenResolver Env) (tok : TokenInfo) (key : string).

Abbreviation cache_get := (AsyncCache_get Env time_time).
Abbreviation cache_set := (AsyncCache_set Env time_time).
Abbreviation search := (search_token Env http_get time_time env_sleep).

(** A fresh entry is returned, and nothing but the clock is touched. *)
Lemma AsyncCache_get_fresh key r value stamp :
  _cache r !! key = Some value →
  _timestamps r !! key = Some stamp →
  ((time_time (env r)).1 - stamp < ttl r)%Q →
  cache_get key r = (Return value, with_env r (time_time (env r)).2).
Proof.
  intros Hc Ht Hfresh. unfold AsyncCache_get. rewrite Hc.
  destruct (time_time (env r)) as [now e]. rewrite Ht.
  cbn in Hfresh. apply Qltb_lt in Hfresh. by rewrite Hfresh.
Qed.

(** A value [get] returns is in the cache, with a time stamp. *)
Lemma AsyncCache_get_Some key r tok r' :
  cache_get key r = (Return (Some tok), r') →
  _cache r' !! key = Some (Some tok) ∧ _timestamps r' !! key = _timestamps r !! key
  ∧ is_Some (_timestamps r' !! key).
Proof.
  unfold AsyncCache_get.
  destruct (_cache r !! key) as [value|] eqn:Hc; [|done].
  destruct (time_time (env r)) as [now e].
  destruct (_timestamps r !! key) as [stamp|] eqn:Ht; [|done].
  destruct (Qltb _ _); [|done].
  intros [= -> <-]. cbn. by rewrite Hc, Ht.
Qed.

Lemma AsyncCache_set_lookup key value r :
  ∃ r', cache_set key value r = (Return tt, r')
        ∧ _cache r' !! key = Some value
        ∧ _timestamps r' !! key = Some (time_time (env r)).1.
Proof.
  unfold AsyncCache_set. destruct (time_time (env r)) as [now e].
  eexists. split; [done|]. cbn. by rewrite !lookup_insert_eq.
Qed.

Lemma search_coins_Some key query_lower coins : ∀ r tok r',
  search_coins Env http_get time_time env_sleep key query_lower coins r
    = (Return (Some tok), r') →
  _cache r' !! key = Some (Some tok) ∧ is_Some (_timestamps r' !! key).
Proof.
  induction coins as [|coin coins IH]; intros r tok r'; [done|].
  cbn [search_coins]. destruct (coin_matches query_lower coin); [|apply IH].
  destruct (coin_id coin) as [cid|]; [|done].
  unfold mbind, M_bind.
  destruct (get_token_info _ _ _ _ cid r) as [[coin_info|e] r1]; [|done].
  destruct (AsyncCache_set_lookup key coin_info r1) as (r2 & -> & Hc & Ht).
  intros [= -> <-]. by rewrite Hc, Ht.
Qed.

(** After a search that succeeded the token is cached under the lowercased
    query. *)
Lemma search_token_cached query r tok r' :
  search query r = (Return (Some tok), r') →
  _cache r' !! ("search_" +:+ lower query) = Some (Some tok)
  ∧ is_Some (_timestamps r' !! ("search_" +:+ lower query)).
Proof.
  unfold search_token. unfold mbind at 1, M_bind at 1.
  destruct (cache_get _ r) as [[[info|]|e] ra] eqn:Hget; [| |done].
  - intros [= -> <-]. by apply AsyncCache_get_Some in Hget as (? & _ & ?).
  - unfold try_except, mbind, M_bind.
    destruct (_make_request _ _ _ _ _ ra) as [[[coins|coin]|e] rb]; [| |done..].
    + destruct (search_coins _ _ _ _ _ _ coins rb) as [[found|e] rc] eqn:Hs;
        [|done].
      intros [= -> <-]. by eapply search_coins_Some.
    + done.
Qed.

(** A search whose key has a fresh entry returns it without a request. *)
Lemma search_token_hit query r tok stamp :
  _cache r !! ("search_" +:+ lower query) = Some (Some tok) →
  _timestamps r !! ("search_" +:+ lower query) = Some stamp →
  ((time_time (env r)).1 - stamp < ttl r)%Q →
  search query r = (Return (Some tok), with_env r (time_time (env r)).2).
Proof.
  intros Hc Ht Hfresh. unfold search_token, mbind, M_bind.
  by rewrite (AsyncCache_get_fresh _ _ _ _ Hc Ht Hfresh).
Qed.

End ResolverFacts.

(** A stub of the outside world, for concrete runs: the world is a clock in
    seconds, a request takes one second, and the metadata service knows
    Bitcoin and Solana. *)
Definition btc_coin : Coin :=
  {| coin_id := Some "bitcoin"; coin_symbol := Some "btc";
     coin_name := Some "Bitcoin"; coin_platforms := Some [] |}.

Definition sol_coin : Coin :=
  {| coin_id := Some "solana"; coin_symbol := Some "sol";
     coin_name := Some "Solana";
     coin_platforms := Some [("solana", "So11111111111111111111111111111111111111112")] |}.

Definition stub_http_get (endpoint : string) (params : list (string * string))
    (clock : nat) : result json * nat :=
  (if String.eqb endpoint "coins/list" then Return (JList [btc_coin; sol_coin])
   else if String.eqb endpoint "coins/solana" then Return (JObject sol_coin)
   else if String.eqb endpoint "coins/bitcoin" then Return (JObject btc_coin)
   else Raise (Exn "ClientResponseError" "404, message='Not Found'"),
   clock + 1).

Definition stub_time (clock : nat) : Q * nat := (inject_Z (Z.of_nat clock), clock).

Definition stub_sleep (d : Q) (clock : nat) : nat := clock + Z.to_nat (Qceiling d).

Definition stub_search : string → M (TokenResolver nat) (option TokenInfo) :=
  search_token nat stub_http_get stub_time stub_sleep.

Definition sol_info : TokenInfo :=
  {| info_id := Some "solana"; info_symbol := "SOL"; info_name := Some "Solana";
     info_platforms := {["solana" := "So11111111111111111111111111111111111111112"]} |}.

(** C6: when [search_token(q)] has succeeded, the token is in the cache
    under the key of the lowercased query with a time stamp, and a
    [search_token(q')] for a case variant [q'] of [q], made while the age of
    that entry is below the TTL, returns the cached token, sends no request to
    the metadata service and leaves the cache as it is; the TTL of a new
    resolver is 3600. *)
Theorem search_token_case_variant_hit (Env : Type)
    (http_get : string → list (string * string) → Env → result json * Env)
    (time_time : Env → Q * Env) (env_sleep : Q → Env → Env)
    (q q' : string) (r1 r2 : TokenResolver Env) (tok : TokenInfo) :
  case_variant q q' →
  search_token Env http_get time_time env_sleep q r1 = (Return (Some tok), r2) →
  (∀ e : Env, ttl (new_resolver e) = 3600%Q)
  ∧ ∃ stamp,
      _cache r2 !! ("search_" +:+ lower q) = Some (Some tok)
      ∧ _timestamps r2 !! ("search_" +:+ lower q) = Some stamp
      ∧ ∀ r3 : TokenResolver Env,
          _cache r3 !! ("search_" +:+ lower q) = Some (Some tok) →
          _timestamps r3 !! ("search_" +:+ lower q) = Some stamp →
          ((time_time (env r3)).1 - stamp < ttl r3)%Q →
          search_token Env http_get time_time env_sleep q' r3 =
            (Return (Some tok), with_env r3 (time_time (env r3)).2)
          ∧ request_log (search_token Env http_get time_time env_sleep q' r3).2
            = request_log r3
          ∧ _cache (search_token Env http_get time_time env_sleep q' r3).2
            = _cache r3.
Proof.
  intros Hcase Hsearch. split; [done|].
  destruct (search_token_cached _ _ _ _ _ _ _ _ Hsearch) as (Hc & stamp & Ht).
  exists stamp. split; [done|]. split; [done|].
  intros r3 Hc3 Ht3 Hfresh.
  rewrite (case_variant_lower _ _ Hcase) in Hc3, Ht3.
  by rewrite (search_token_hit _ http_get _ env_sleep q' r3 tok stamp Hc3 Ht3 Hfresh).
Qed.

(** The resolver after a first [search_token("sol")] against the stub. *)
Definition resolver_after_sol : TokenResolver nat :=
  (stub_search "sol" (new_resolver 0)).2.

Lemma search_token_case_variant_hit_witness :
  case_variant "sol" "SOL"
  ∧ stub_search "sol" (new_resolver 0) = (Return (Some sol_info), resolver_after_sol)
  ∧ stub_search "SOL" (with_env resolver_after_sol 3000) =
      (Return (Some sol_info), with_env resolver_after_sol 3000)
  ∧ request_log (stub_search "SOL" (with_env resolver_after_sol 3000)).2 =
      ["coins/list"; "coins/solana"].
Proof.
  assert (case_variant "sol" "SOL") as Hcase.
  { apply (case_variant_up "S"); [reflexivity|].
    apply (case_variant_up "O"); [reflexivity|].
    apply (case_variant_up "L"); [reflexivity|].
    apply case_variant_nil. }
  assert (stub_search "sol" (new_resolver 0) =
          (Return (Some sol_info), resolver_after_sol)) as Hfirst.
  { vm_compute. reflexivity. }
  split; [exact Hcase|]. split; [exact Hfirst|].
  destruct (search_token_case_variant_hit nat stub_http_get stub_time stub_sleep
              "sol" "SOL" (new_resolver 0) resolver_after_sol sol_info Hcase Hfirst)
    as (_ & stamp & Hc & Ht & Hhit).
  assert (stamp = 2%Q) as ->.
  { vm_compute in Ht. by injection Ht as <-. }
  destruct (Hhit (with_env resolver_after_sol 3000) Hc Ht) as (Hsecond & Hlog & _).
  { vm_compute. reflexivity. }
  split; [exact Hsecond|].
  etrans; [exact Hlog|]. vm_compute. reflexivity.
Defined.

(** ** Fetching the prices *)

(** The analysis of an empty list of quotes. *)
Definition empty_analysis {N : Number} : Analysis N :=
  {| count := 0; valid_count := 0; error_count := 0;
     min_price := None; max_price := None; avg_price := None;
     spread_percent := None; prices := []; opportunities := [] |}.

Lemma omap_keep_quote_Return {N : Number} (quotes : list (ExchangePrice N)) :
  omap keep_quote (Return <$> quotes) = quotes.
Proof. induction quotes as [|q quotes IH]; cbn; congruence. Qed.

(** C1 (as amended): when the token resolves and exactly one of the
    dispatched adapter calls raises while the others return quotes,
    [get_token_prices] returns normally the quotes of the others, in the order
    of dispatch, and nothing for the adapter that raised: its exception is
    logged and dropped. *)
Theorem get_token_prices_drops_exception {N : Number} (Env : Type)
    (http_get : string → list (string * string) → Env → result json * Env)
    (time_time : Env → Q * Env) (env_sleep : Q → Env → Env)
    (self : PriceChecker) (token : string) (r r' : TokenResolver Env)
    (info : TokenInfo) (before after : list (ExchangePrice N)) (e : exn) :
  search_token Env http_get time_time env_sleep token r = (Return (Some info), r') →
  omap (task_for (info_symbol info) (info_platforms info)) (exchanges self) =
    (Return <$> before) ++ Raise e :: (Return <$> after) →
  get_token_prices Env http_get time_time env_sleep self token r =
    (Return (before ++ after), r')
  ∧ length (before ++ after) =
      length (omap (task_for (info_symbol info) (info_platforms info))
                (exchanges self)) - 1.
Proof.
  intros Hsearch Htasks. split.
  - unfold get_token_prices, mbind, M_bind. rewrite Hsearch, Htasks.
    unfold gather. rewrite omap_app.
    change (omap keep_quote (Raise e :: (Return <$> after)))
      with (omap keep_quote (Return <$> after)).
    rewrite !omap_keep_quote_Return. by destruct before.
  - rewrite Htasks, !length_app, length_cons, !length_fmap. lia.
Qed.

(** Two adapters for concrete runs: one returns a quote, one lets an
    exception escape. *)
Definition healthy_binance : Exchange (N := FloatNumber) :=
  {| name := "Binance"; adapter_type := CEX; adapter_class := Binance;
     get_price := λ _, Return (priced (N := FloatNumber) "Binance" 100%float) |}.

Definition broken_bybit : Exchange (N := FloatNumber) :=
  {| name := "Bybit"; adapter_type := CEX; adapter_class := Bybit;
     get_price := λ _, Raise (Exn "RuntimeError" "Session is closed") |}.

Definition two_venues : PriceChecker (N := FloatNumber) :=
  {| exchanges := [healthy_binance; broken_bybit];
     min_price_difference_percent := 0.5%float |}.

Lemma get_token_prices_drops_exception_witness :
  get_token_prices nat stub_http_get stub_time stub_sleep two_venues "sol"
    (new_resolver 0) =
  (Return [priced (N := FloatNumber) "Binance" 100%float], resolver_after_sol).
Proof.
  apply (get_token_prices_drops_exception (N := FloatNumber)
           nat stub_http_get stub_time stub_sleep two_venues "sol"
           (new_resolver 0) resolver_after_sol sol_info
           [priced (N := FloatNumber) "Binance" 100%float] []
           (Exn "RuntimeError" "Session is closed")).
  - vm_compute. reflexivity.
  - reflexivity.
Defined.

(** C1 (as stated) fails: with a healthy adapter and one whose call raises,
    the result has the quote of the healthy adapter only; no quote carries an
    error, so none holds the text of the exception. *)
Lemma escaped_exception_counterexample :
  ∃ quotes,
    (get_token_prices nat stub_http_get stub_time stub_sleep two_venues "sol"
       (new_resolver 0)).1 = Return quotes
    ∧ get_price broken_bybit ["SOL"] = Raise (Exn "RuntimeError" "Session is closed")
    ∧ length quotes = 1
    ∧ ∀ q, q ∈ quotes → exchange_name q = "Binance" ∧ error q = None.
Proof.
  exists [priced (N := FloatNumber) "Binance" 100%float]. split; [by vm_compute|].
  split; [done|]. split; [done|].
  by intros q ->%list_elem_of_singleton.
Qed.

(** C2 (as amended): when the resolution of the query fails,
    [get_token_prices] returns the empty list normally (the failure is only
    logged, nothing is raised), and [check_token_price] returns the analysis
    of the empty list; it returns the very same analysis when the token
    resolves but no adapter call is dispatched for it. *)
Theorem check_token_price_unresolved {N : Number} (Env : Type)
    (http_get : string → list (string * string) → Env → result json * Env)
    (time_time : Env → Q * Env) (env_sleep : Q → Env → Env)
    (self : PriceChecker) (token : string) (r r' : TokenResolver Env) :
  search_token Env http_get time_time env_sleep token r = (Return None, r')
  ∨ (∃ info,
       search_token Env http_get time_time env_sleep token r = (Return (Some info), r')
       ∧ omap (task_for (info_symbol info) (info_platforms info)) (exchanges self)
         = []) →
  get_token_prices Env http_get time_time env_sleep self token r = (Return [], r')
  ∧ check_token_price Env http_get time_time env_sleep self token r
    = (Return (empty_analysis (N := N)), r').
Proof.
  intros Hsearch.
  assert (get_token_prices Env http_get time_time env_sleep self token r
          = (Return [], r')) as Hprices.
  { unfold get_token_prices, mbind, M_bind.
    destruct Hsearch as [-> | (info & -> & ->)]; done. }
  split; [done|].
  unfold check_token_price, mbind, M_bind. by rewrite Hprices.
Qed.

(** A checker whose only adapter reads Ethereum pools; Solana has no
    address there. *)
Definition uniswap_only : PriceChecker (N := FloatNumber) :=
  {| exchanges :=
       [{| name := "Uniswap V2"; adapter_type := DEX; adapter_class := UniswapV2;
           get_price := λ _, Return (priced (N := FloatNumber) "Uniswap V2" 100%float) |}];
     min_price_difference_percent := 0.5%float |}.

Lemma check_token_price_unresolved_witness :
  get_token_prices nat stub_http_get stub_time stub_sleep uniswap_only "dogwifhat"
    (new_resolver 0) =
    (Return [], (stub_search "dogwifhat" (new_resolver 0)).2)
  ∧ check_token_price nat stub_http_get stub_time stub_sleep uniswap_only "dogwifhat"
      (new_resolver 0) =
    (Return empty_analysis, (stub_search "dogwifhat" (new_resolver 0)).2).
Proof.
  apply (check_token_price_unresolved (N := FloatNumber)
           nat stub_http_get stub_time stub_sleep uniswap_only "dogwifhat"
           (new_resolver 0) (stub_search "dogwifhat" (new_resolver 0)).2).
  left. vm_compute. reflexivity.
Defined.

(** C2 (as stated) fails: a query that does not resolve and a query that
    resolves to a token for which no adapter takes part both return normally,
    with the same analysis; nothing in the result tells them apart. *)
Lemma unknown_token_counterexample :
  (stub_search "dogwifhat" (new_resolver 0)).1 = Return None
  ∧ (stub_search "sol" (new_resolver 0)).1 = Return (Some sol_info)
  ∧ (get_token_prices nat stub_http_get stub_time stub_sleep uniswap_only
       "dogwifhat" (new_resolver 0)).1 = Return []
  ∧ (check_token_price nat stub_http_get stub_time stub_sleep uniswap_only
       "dogwifhat" (new_resolver 0)).1 = Return empty_analysis
  ∧ (check_token_price nat stub_http_get stub_time stub_sleep uniswap_only
       "sol" (new_resolver 0)).1 = Return empty_analysis.
Proof. repeat split; by vm_compute. Qed.

(** * Further properties of the code *)

(** ** The dictionary of the analyzer *)

(** What [analyze_prices] computes when some quote is valid. *)
Lemma analyze_prices_some_valid {N : Number} (min_diff : num)
    (prices0 : list (ExchangePrice N)) :
  filter (λ p, is_valid p) prices0 ≠ [] →
  ∃ xs mn mx found,
    Forall2 (λ p x, price p = Some x) (filter (λ p, is_valid p) prices0) xs
    ∧ Forall positive xs
    ∧ py_min xs = Return mn
    ∧ py_max xs = Return mx
    ∧ scan_pairs min_diff (filter (λ p, is_valid p) prices0) = Return found
    ∧ analyze_prices min_diff prices0 =
        Return {| count := length prices0;
                  valid_count := length (filter (λ p, is_valid p) prices0);
                  error_count :=
                    length prices0 - length (filter (λ p, is_valid p) prices0);
                  min_price := Some mn; max_price := Some mx;
                  avg_price := Some (ndiv_raw (py_sum xs) (of_int (length xs)));
                  spread_percent := Some (nmul (ndiv_raw (nsub mx mn) mn) nhundred);
                  prices := prices0;
                  opportunities := sort_by_profit found |}.
Proof.
  intros Hsome. unfold analyze_prices.
  pose proof (valid_prices_valid prices0) as Hvalid.
  destruct (filter (λ p, is_valid p) prices0) as [|v valid] eqn:Hf; [done|].
  destruct (mapM_price_value _ Hvalid) as (xs & -> & H2 & Hpos).
  assert (xs ≠ []) as Hne by (inversion H2; done).
  destruct (py_min_positive xs Hne Hpos) as (mn & Hmn & Hmnpos).
  destruct (py_max_positive xs Hne Hpos) as (mx & Hmx & _).
  destruct (scan_pairs_returns min_diff _ Hvalid) as (found & -> & Hbuy).
  exists xs, mn, mx, found. do 5 (split; [done|]).
  cbn. rewrite Hmn. cbn. rewrite Hmx. cbn.
  unfold div_int. destruct xs as [|x xs]; [done|]. cbn.
  by rewrite (div_positive _ _ Hmnpos).
Qed.

Lemma length_filter_le {A : Type} (P : A → Prop) `{∀ x, Decision (P x)} (l : list A) :
  length (filter P l) ≤ length l.
Proof.
  induction l as [|x l IH]; [done|]. rewrite filter_cons.
  destruct (decide (P x)); cbn; lia.
Qed.

(** X1: [analyze_prices] returns its input under [prices] and the number of
    valid quotes under [valid_count].  When some quote is valid, [count] is
    the number of quotes, [valid_count + error_count = count], and the four
    statistics are present.  When none is valid, [count] is 0 whatever the
    number of quotes, [error_count] is the number of quotes, and the
    statistics are absent. *)
Theorem analyze_prices_accounting {N : Number} (min_diff : num)
    (prices0 : list (ExchangePrice N)) :
  ∃ r,
    analyze_prices min_diff prices0 = Return r
    ∧ prices r = prices0
    ∧ valid_count r = length (filter (λ p, is_valid p) prices0)
    ∧ (valid_count r ≠ 0 →
         count r = length prices0
         ∧ valid_count r + error_count r = count r
         ∧ is_Some (min_price r) ∧ is_Some (max_price r)
         ∧ is_Some (avg_price r) ∧ is_Some (spread_percent r))
    ∧ (valid_count r = 0 →
         count r = 0
         ∧ error_count r = length prices0
         ∧ min_price r = None ∧ max_price r = None
         ∧ avg_price r = None ∧ spread_percent r = None
         ∧ opportunities r = []).
Proof.
  destruct (decide (filter (λ p, is_valid p) prices0 = [])) as [Hnone|Hsome].
  - unfold analyze_prices. rewrite Hnone. eexists. split; [done|]. cbn.
    repeat split; done.
  - destruct (analyze_prices_some_valid min_diff prices0 Hsome)
      as (xs & mn & mx & found & _ & _ & _ & _ & _ & ->).
    eexists. split; [done|]. cbn. split; [done|]. split; [done|].
    pose proof (length_filter_le (λ p, is_valid p) prices0).
    split.
    + intros _. repeat split; eauto; lia.
    + intros Hlen. by apply length_zero_iff_nil in Hlen.
Qed.

(** ** The statistics (exact prices) *)

Section StatisticsFacts.
Implicit Types (x y m : Q) (l : list Q).

Lemma fold_min_spec l : ∀ x,
  let m := fold_left (λ cur item, if Qltb item cur then item else cur) l x in
  m ∈ x :: l ∧ Forall (λ y, (m <= y)%Q) (x :: l).
Proof.
  induction l as [|y l IH]; intros x; cbn.
  { split; [apply list_elem_of_here|]. constructor; [apply Qle_refl|constructor]. }
  destruct (IH (if Qltb y x then y else x)) as [Hin Hall].
  apply Forall_cons in Hall as [Hhd Htl]. split.
  - rewrite !elem_of_cons. apply elem_of_cons in Hin as [->|Hin]; [|by auto].
    destruct (Qltb y x); auto.
  - destruct (Qltb y x) eqn:E.
    + apply Qltb_lt in E. repeat constructor; [lra|done..].
    + apply Qltb_ge in E. repeat constructor; [done|lra|done].
Qed.

Lemma fold_max_spec l : ∀ x,
  let m := fold_left (λ cur item, if Qltb cur item then item else cur) l x in
  m ∈ x :: l ∧ Forall (λ y, (y <= m)%Q) (x :: l).
Proof.
  induction l as [|y l IH]; intros x; cbn.
  { split; [apply list_elem_of_here|]. constructor; [apply Qle_refl|constructor]. }
  destruct (IH (if Qltb x y then y else x)) as [Hin Hall].
  apply Forall_cons in Hall as [Hhd Htl]. split.
  - rewrite !elem_of_cons. apply elem_of_cons in Hin as [->|Hin]; [|by auto].
    destruct (Qltb x y); auto.
  - destruct (Qltb x y) eqn:E.
    + apply Qltb_lt in E. repeat constructor; [lra|done..].
    + apply Qltb_ge in E. repeat constructor; [done|lra|done].
Qed.

Lemma py_min_spec l m :
  py_min (N := QNumber) l = Return m → m ∈ l ∧ Forall (λ y, (m <= y)%Q) l.
Proof.
  destruct l as [|x l]; [done|]. intros [= <-]. apply (fold_min_spec l x).
Qed.

Lemma py_max_spec l m :
  py_max (N := QNumber) l = Return m → m ∈ l ∧ Forall (λ y, (y <= m)%Q) l.
Proof.
  destruct l as [|x l]; [done|]. intros [= <-]. apply (fold_max_spec l x).
Qed.

Lemma of_int_S (n : nat) :
  (inject_Z (Z.of_nat (S n)) == inject_Z (Z.of_nat n) + 1)%Q.
Proof. rewrite Nat2Z.inj_succ, <- Z.add_1_r, inject_Z_plus. reflexivity. Qed.





End StatisticsFacts.



(** ** Where an opportunity comes from *)

(** The opportunity the loop body builds for the quotes [a] and [b], priced
    [pa] and [pb], with the difference [diff_percent]. *)
Definition opportunity_of {N : Number} (a : ExchangePrice N) (pa : num)
    (b : ExchangePrice N) (pb : num) : ArbitrageOpportunity N :=
  let '(buy, sell) :=
    if nltb pa pb then (a, pa, (b, pb)) else (b, pb, (a, pa)) in
  {| buy_exchange := exchange_name buy.1;
     sell_exchange := exchange_name sell.1;
     buy_price := buy.2;
     sell_price := sell.2;
     price_difference_percent := nabs (nmul (ndiv_raw (nsub pa pb) pb) nhundred);
     potential_profit_percent := nmul (ndiv_raw (nsub sell.2 buy.2) buy.2) nhundred |}.

Lemma emitted_for_valid {N : Number} (min_diff : num) (a b : ExchangePrice N) :
  is_valid a = true → is_valid b = true →
  ∃ pa pb, price a = Some pa ∧ price b = Some pb ∧ positive pa ∧ positive pb ∧
    emitted_for min_diff (a, b) =
      if nleb min_diff (nabs (nmul (ndiv_raw (nsub pa pb) pb) nhundred))
      then [opportunity_of a pa b pb] else [].
Proof.
  intros Ha Hb.
  destruct (find_opportunity_valid min_diff a b Ha Hb)
    as (pa & pb & Hpa & Hpb & Hposa & Hposb & Hfind).
  exists pa, pb. do 4 (split; [done|]).
  unfold emitted_for. cbn [fst snd]. rewrite Hfind.
  by destruct (nleb min_diff _).
Qed.

Lemma opportunity_origin {N : Number} (min_diff : num)
    (valid : list (ExchangePrice N)) (opp : ArbitrageOpportunity N) :
  Forall (λ p, is_valid p = true) valid →
  opp ∈ pairs_of valid ≫= emitted_for min_diff →
  ∃ i j a b pa pb,
    i < j ∧ valid !! i = Some a ∧ valid !! j = Some b
    ∧ price a = Some pa ∧ price b = Some pb ∧ positive pa ∧ positive pb
    ∧ nleb min_diff (nabs (nmul (ndiv_raw (nsub pa pb) pb) nhundred)) = true
    ∧ opp = opportunity_of a pa b pb.
Proof.
  intros Hvalid ([a b] & Hopp & Hab)%list_elem_of_bind.
  apply elem_of_pairs_of in Hab as (i & j & Hij & Hi & Hj).
  rewrite Forall_forall in Hvalid.
  assert (is_valid a = true) as Ha by (eapply Hvalid, list_elem_of_lookup_2, Hi).
  assert (is_valid b = true) as Hb by (eapply Hvalid, list_elem_of_lookup_2, Hj).
  destruct (emitted_for_valid min_diff a b Ha Hb)
    as (pa & pb & Hpa & Hpb & Hposa & Hposb & Hem).
  rewrite Hem in Hopp. exists i, j, a, b, pa, pb.
  destruct (nleb min_diff _); [|by apply elem_of_nil in Hopp].
  apply list_elem_of_singleton in Hopp. by repeat split.
Qed.

Lemma length_pairs_of {A : Type} (l : list A) :
  2 * length (pairs_of l) = length l * (length l - 1).
Proof.
  induction l as [|a l IH]; [done|].
  cbn [pairs_of length]. rewrite length_app, length_fmap.
  generalize dependent (length (pairs_of l)). intros m.
  destruct (length l) as [|n]; [lia|].
  replace (S n - 1) with n by lia. replace (S (S n) - 1) with (S n) by lia. nia.
Qed.

Lemma length_bind_at_most_one {A B : Type} (f : A → list B) (l : list A) :
  (∀ x, length (f x) ≤ 1) → length (l ≫= f) ≤ length l.
Proof.
  intros Hf. induction l as [|x l IH]; [done|].
  rewrite bind_cons, length_app. specialize (Hf x).
  change (length (x :: l)) with (S (length l)). lia.
Qed.

Lemma length_emitted_for {N : Number} (min_diff : num)
    (ab : ExchangePrice N * ExchangePrice N) :
  length (emitted_for min_diff ab) ≤ 1.
Proof.
  unfold emitted_for. destruct (find_opportunity _ _ _) as [[o|]|e]; cbn; lia.
Qed.

(** X3: every opportunity [analyze_prices] returns comes from two valid
    quotes of the input at different positions [i < j] of the valid
    subsequence: it buys from the one with the strictly lower price and sells
    to the other, at their prices; when the two prices are not in that order
    (equal included) it buys from the later quote.  There are at most
    [n (n - 1) / 2] opportunities for [n] valid quotes, so none when fewer
    than two quotes are valid. *)
Theorem analyze_prices_opportunity_origin {N : Number} (min_diff : num)
    (prices0 : list (ExchangePrice N)) :
  ∃ r,
    analyze_prices min_diff prices0 = Return r
    ∧ 2 * length (opportunities r) ≤ valid_count r * (valid_count r - 1)
    ∧ ∀ opp, opp ∈ opportunities r →
        ∃ i j a b pa pb,
          i < j
          ∧ filter (λ p, is_valid p) prices0 !! i = Some a
          ∧ filter (λ p, is_valid p) prices0 !! j = Some b
          ∧ price a = Some pa ∧ price b = Some pb
          ∧ ((nltb pa pb = true
              ∧ buy_exchange opp = exchange_name a ∧ buy_price opp = pa
              ∧ sell_exchange opp = exchange_name b ∧ sell_price opp = pb)
             ∨ (nltb pa pb = false
                ∧ buy_exchange opp = exchange_name b ∧ buy_price opp = pb
                ∧ sell_exchange opp = exchange_name a ∧ sell_price opp = pa)).
Proof.
  destruct (analyze_prices_returns min_diff prices0)
    as (found & r & Hscan & _ & Hr & Hopp & Hcount & _).
  pose proof (valid_prices_valid prices0) as Hvalid.
  rewrite (scan_pairs_emitted _ _ Hvalid) in Hscan. injection Hscan as <-.
  exists r. split; [done|]. split.
  - rewrite Hopp, sort_by_profit_perm, Hcount, <- length_pairs_of.
    pose proof (length_bind_at_most_one (emitted_for min_diff)
                  (pairs_of (filter (λ p, is_valid p) prices0))
                  (length_emitted_for min_diff)). lia.
  - intros opp Hin. rewrite Hopp, sort_by_profit_perm in Hin.
    destruct (opportunity_origin _ _ _ Hvalid Hin)
      as (i & j & a & b & pa & pb & Hij & Hi & Hj & Hpa & Hpb & _ & _ & _ & ->).
    exists i, j, a, b, pa, pb. do 5 (split; [done|]).
    unfold opportunity_of. destruct (nltb pa pb); [left|right]; done.
Qed.

(** ** The numbers of an opportunity (exact prices) *)

Lemma Qdiv_le_compat (n1 n2 d1 d2 : Q) :
  (0 <= n1 <= n2)%Q → (0 < d2 <= d1)%Q → (n1 / d1 <= n2 / d2)%Q.
Proof.
  intros [Hn0 Hn] [Hd0 Hd].
  apply Qle_shift_div_l; [done|].
  unfold Qdiv. rewrite <- Qmult_assoc, (Qmult_comm (/ d1)), Qmult_assoc.
  apply Qle_shift_div_r; [lra|]. nra.
Qed.

Lemma percent_le_compat (n1 n2 d1 d2 : Q) :
  (0 <= n1 <= n2)%Q → (0 < d2 <= d1)%Q → (n1 / d1 * 100 <= n2 / d2 * 100)%Q.
Proof.
  intros Hn Hd. pose proof (Qdiv_le_compat n1 n2 d1 d2 Hn Hd). lra.
Qed.

Lemma percent_nonneg (n d : Q) : (0 <= n)%Q → (0 < d)%Q → (0 <= n / d * 100)%Q.
Proof.
  intros Hn Hd. apply Qmult_le_0_compat; [|done].
  apply Qle_shift_div_l; [done|]. lra.
Qed.

(** The numbers of the opportunity of two prices above zero. *)
Lemma opportunity_of_numbers (a b : ExchangePrice QNumber) (pa pb : Q) :
  (0 < pa)%Q → (0 < pb)%Q →
  let opp := opportunity_of (N := QNumber) a pa b pb in
  (0 < buy_price opp)%Q ∧ (buy_price opp <= sell_price opp)%Q
  ∧ (buy_price opp = pa ∨ buy_price opp = pb)
  ∧ (sell_price opp = pa ∨ sell_price opp = pb)
  ∧ potential_profit_percent opp =
      ((sell_price opp - buy_price opp) / buy_price opp * 100)%Q
  ∧ price_difference_percent opp = Qabs ((pa - pb) / pb * 100)
  ∧ (price_difference_percent opp <= potential_profit_percent opp)%Q.
Proof.
  intros Hpa Hpb. unfold opportunity_of.
  change (@nltb QNumber) with Qltb. change (@nabs QNumber) with Qabs.
  change (@nmul QNumber) with Qmult. change (@ndiv_raw QNumber) with Qdiv.
  change (@nsub QNumber) with Qminus. change (@nhundred QNumber) with 100%Q.
  destruct (Qltb pa pb) eqn:E; cbn [fst snd buy_price sell_price
    potential_profit_percent price_difference_percent].
  - apply Qltb_lt in E. split; [done|]. split; [lra|]. split; [by left|].
    split; [by right|]. split; [done|]. split; [done|].
    rewrite (Qabs_percent pa pb Hpb).
    rewrite (Qabs_neg (pa - pb)) by lra.
    apply percent_le_compat; lra.
  - apply Qltb_ge in E. split; [done|]. split; [done|]. split; [by right|].
    split; [by left|]. split; [done|]. split; [done|].
    rewrite (Qabs_percent pa pb Hpb).
    rewrite (Qabs_pos (pa - pb)) by lra. apply Qle_refl.
Qed.

(** X4: in exact arithmetic, every opportunity [analyze_prices] returns has
    a buy price above zero and not above its sell price, the profit
    [(sell - buy) / buy * 100], and
    [min_diff <= price_difference_percent <= potential_profit_percent];
    its profit is never above the [spread_percent] of the same analysis. *)
Theorem analyze_prices_opportunity_bounds (min_diff : Q)
    (prices0 : list (ExchangePrice QNumber)) :
  ∃ r,
    analyze_prices min_diff prices0 = Return r
    ∧ ∀ opp, opp ∈ opportunities r →
        (0 < buy_price opp)%Q ∧ (buy_price opp <= sell_price opp)%Q
        ∧ potential_profit_percent opp =
            ((sell_price opp - buy_price opp) / buy_price opp * 100)%Q
        ∧ (min_diff <= price_difference_percent opp)%Q
        ∧ (price_difference_percent opp <= potential_profit_percent opp)%Q
        ∧ (∀ sp : Q, spread_percent r = Some sp →
             (potential_profit_percent opp <= sp)%Q).
Proof.
  destruct (decide (filter (λ p, is_valid p) prices0 = [])) as [Hnone|Hsome].
  { unfold analyze_prices. rewrite Hnone. eexists. split; [done|].
    by intros opp ?%elem_of_nil. }
  destruct (analyze_prices_some_valid (N := QNumber) min_diff prices0 Hsome)
    as (xs & mn & mx & found & H2 & Hpos & Hmn & Hmx & Hscan & ->).
  pose proof (valid_prices_valid prices0) as Hvalid.
  rewrite (scan_pairs_emitted _ _ Hvalid) in Hscan. injection Hscan as <-.
  eexists. split; [done|]. cbn [opportunities spread_percent].
  intros opp Hin. rewrite sort_by_profit_perm in Hin.
  destruct (opportunity_origin _ _ _ Hvalid Hin)
    as (i & j & a & b & pa & pb & _ & Hi & Hj & Hpa & Hpb & Hposa & Hposb
        & Hdiff & ->).
  apply Qltb_lt in Hposa, Hposb.
  destruct (opportunity_of_numbers a b pa pb Hposa Hposb)
    as (Hbuy & Hle & Hb & Hs & Hprofit & Hd & Hdp).
  do 3 (split; [done|]). split.
  { rewrite Hd. by apply Qle_bool_iff in Hdiff. }
  split; [done|].
  intros sp [= <-]. rewrite Hprofit.
  apply py_min_spec in Hmn as [Hmn_in Hmn_le].
  apply py_max_spec in Hmx as [_ Hmx_le].
  rewrite Forall_forall in Hmn_le, Hmx_le, Hpos.
  assert (0 < mn)%Q as Hmn_pos by by apply Qltb_lt, (Hpos mn).
  assert (pa ∈ xs ∧ pb ∈ xs) as [Hain Hbin].
  { destruct (Forall2_lookup_l _ _ _ _ _ H2 Hi) as (x & Hx & Hax).
    destruct (Forall2_lookup_l _ _ _ _ _ H2 Hj) as (y & Hy & Hby).
    assert (x = pa) as -> by congruence. assert (y = pb) as -> by congruence.
    split; by eapply list_elem_of_lookup_2. }
  pose proof (Hmn_le pa Hain). pose proof (Hmn_le pb Hbin).
  pose proof (Hmx_le pa Hain). pose proof (Hmx_le pb Hbin).
  change (((sell_price (opportunity_of a pa b pb)
            - buy_price (opportunity_of a pa b pb))
           / buy_price (opportunity_of a pa b pb) * 100
           <= (mx - mn) / mn * 100)%Q).
  destruct Hb as [Hb|Hb], Hs as [Hs|Hs]; rewrite Hb, Hs in Hle |- *;
    apply percent_le_compat; lra.
Qed.

(** ** The cache and the resolver, continued *)

Section ResolverMore.
Variable Env : Type.
Variable http_get : string → list (string * string) → Env → result json * Env.
Variable time_time : Env → Q * Env.
Variable env_sleep : Q → Env → Env.
Implicit Types (r : TokenResolver Env) (key : string).

(** [AsyncCache.clear] *)
Definition AsyncCache_clear : M (TokenResolver Env) unit := λ r,
  (Return tt,
   {| env := env r; request_log := request_log r; ttl := ttl r;
      _cache := ∅; _timestamps := ∅ |}).

(** [TokenResolver.get_token_address] *)
Definition get_token_address (token platform : string)
  : M (TokenResolver Env) (option string) :=
  token_info ← search_token Env http_get time_time env_sleep token;
  match token_info with
  | None => mret None
  | Some token_info =>
      let platform_lower := lower platform in
      match info_platforms token_info !! platform_lower with
      | Some address => if String.eqb address "" then mret None else mret (Some address)
      | None => mret None
      end
  end.

(** [TokenResolver.get_all_addresses] *)
Definition get_all_addresses (token : string)
  : M (TokenResolver Env) (gmap string string) :=
  token_info ← search_token Env http_get time_time env_sleep token;
  match token_info with
  | None => mret ∅
  | Some token_info => mret (info_platforms token_info)
  end.

(** [TokenResolver.get_token_symbol_for_cex] *)
Definition get_token_symbol_for_cex (token : string)
  : M (TokenResolver Env) (option string) :=
  token_info ← search_token Env http_get time_time env_sleep token;
  match token_info with
  | None => mret None
  | Some token_info => mret (Some (info_symbol token_info))
  end.

(** The two dictionaries of the cache have the same keys. *)
Definition cache_consistent r : Prop :=
  dom (_cache r) = dom (_timestamps r).

(** What a computation of the resolver may do to it: it appends [k] requests
    to [endpoint], keeps the TTL and keeps the cache consistent; the entries
    of the cache whose key satisfies [frame] stay as they are. *)
Definition resolver_step (frame : string → Prop) (endpoint : string) (k : nat)
    r r' : Prop :=
  request_log r' = request_log r ++ replicate k endpoint
  ∧ ttl r' = ttl r
  ∧ (cache_consistent r → cache_consistent r')
  ∧ (∀ key, frame key →
       _cache r' !! key = _cache r !! key
       ∧ _timestamps r' !! key = _timestamps r !! key).

Lemma resolver_step_refl frame endpoint r : resolver_step frame endpoint 0 r r.
Proof. unfold resolver_step. cbn. rewrite app_nil_r. done. Qed.

Lemma resolver_step_trans frame endpoint k1 k2 r1 r2 r3 :
  resolver_step frame endpoint k1 r1 r2 →
  resolver_step frame endpoint k2 r2 r3 →
  resolver_step frame endpoint (k1 + k2) r1 r3.
Proof.
  intros (Hl1 & Ht1 & Hc1 & Hf1) (Hl2 & Ht2 & Hc2 & Hf2). split_and!.
  - by rewrite Hl2, Hl1, replicate_add, app_assoc.
  - congruence.
  - auto.
  - intros key Hkey. destruct (Hf1 key Hkey), (Hf2 key Hkey). split; congruence.
Qed.

Lemma resolver_step_weaken (frame frame' : string → Prop) endpoint k r r' :
  (∀ key, frame' key → frame key) →
  resolver_step frame endpoint k r r' → resolver_step frame' endpoint k r r'.
Proof. intros Hsub (Hl & Ht & Hc & Hf). split_and!; auto. Qed.

(** With no request made the endpoint does not matter. *)
Lemma resolver_step_endpoint frame endpoint endpoint' r r' :
  resolver_step frame endpoint 0 r r' → resolver_step frame endpoint' 0 r r'.
Proof. done. Qed.

Lemma with_env_step frame endpoint r e :
  resolver_step frame endpoint 0 r (with_env r e).
Proof. unfold resolver_step, cache_consistent. cbn. by rewrite app_nil_r. Qed.

(** [AsyncCache.get] touches the entry of its key only; from a consistent
    cache it returns. *)
Lemma AsyncCache_get_step key r endpoint :
  ∃ res r',
    AsyncCache_get Env time_time key r = (res, r')
    ∧ resolver_step (λ k, k ≠ key) endpoint 0 r r'
    ∧ (cache_consistent r → ∃ v, res = Return v)
    ∧ (∀ tok, res = Return (Some tok) →
         _cache r !! key = Some (Some tok) ∧ _cache r' !! key = Some (Some tok)
         ∧ _timestamps r' !! key = _timestamps r !! key
         ∧ is_Some (_timestamps r !! key))
    ∧ (res = Return None →
         _cache r' !! key = None ∨ _cache r' !! key = Some None).
Proof.
  unfold AsyncCache_get.
  destruct (_cache r !! key) as [value|] eqn:Hc.
  2: { eexists _, _. split; [done|]. split; [apply resolver_step_refl|].
       split; [eauto|]. split; [done|]. intros _. by left. }
  destruct (time_time (env r)) as [now e].
  destruct (_timestamps r !! key) as [stamp|] eqn:Ht.
  2: { eexists _, _. split; [done|]. split; [apply with_env_step|].
       split; [|done]. intros Hcons. exfalso.
       assert (key ∈ dom (_cache r)) as Hin by (apply elem_of_dom; eauto).
       rewrite Hcons in Hin. apply elem_of_dom in Hin as [? ?]. congruence. }
  destruct (Qltb (now - stamp) (ttl r)).
  - eexists _, _. split; [done|]. split; [apply with_env_step|].
    split; [eauto|]. split.
    + intros tok [= ->]. cbn. rewrite Ht. eauto.
    + intros [= ->]. by right.
  - eexists _, _. split; [done|]. split.
    + unfold resolver_step, cache_consistent. cbn. rewrite app_nil_r.
      split_and!; [done..| |].
      * intros Hcons. by rewrite !dom_delete_L, Hcons.
      * intros k Hk. by rewrite !lookup_delete_ne.
    + split; [eauto|]. split; [done|]. intros _. left. cbn.
      apply lookup_delete_eq.
Qed.

(** [AsyncCache.set] writes the entry of its key only. *)
Lemma AsyncCache_set_step key value r endpoint :
  ∃ r',
    AsyncCache_set Env time_time key value r = (Return tt, r')
    ∧ resolver_step (λ k, k ≠ key) endpoint 0 r r'
    ∧ _cache r' !! key = Some value
    ∧ _timestamps r' !! key = Some (time_time (env r)).1.
Proof.
  unfold AsyncCache_set. destruct (time_time (env r)) as [now e].
  eexists. split; [done|]. cbn. rewrite !lookup_insert_eq. split; [|done].
  unfold resolver_step, cache_consistent. cbn. rewrite app_nil_r.
  split_and!; [done..| |].
  - intros Hcons. by rewrite !dom_insert_L, Hcons.
  - intros k Hk. by rewrite !lookup_insert_ne.
Qed.


Lemma request_once_step endpoint params r :
  ∃ res r',
    request_once Env http_get endpoint params r = (res, r')
    ∧ resolver_step (λ _, True) endpoint 1 r r'.
Proof.
  unfold request_once. destruct (http_get endpoint params (env r)) as [res e].
  eexists _, _. split; [done|]. by unfold resolver_step, cache_consistent.
Qed.

(** The retry loop around one request: as many requests as attempts at most,
    one at least when there is an attempt; the cache is left alone. *)
Lemma retry_request_step (m : nat) (d : Q) endpoint params attempts : ∀ last r,
  ∃ res r' k,
    retry_loop (sleep Env env_sleep) m d (request_once Env http_get endpoint params)
      attempts last r = (res, r')
    ∧ k ≤ length attempts ∧ (attempts ≠ [] → 1 ≤ k)
    ∧ resolver_step (λ _, True) endpoint k r r'.
Proof.
  induction attempts as [|attempt attempts IH]; intros last r.
  { cbn. exists (match last with
                 | Some e => Raise e
                 | None => Raise (TypeError "exceptions must derive from BaseException")
                 end), r, 0.
    split; [by destruct last|]. split; [done|]. split; [done|].
    apply resolver_step_refl. }
  cbn [retry_loop]. unfold try_except.
  destruct (request_once_step endpoint params r) as (res & r1 & -> & Hstep).
  destruct res as [v|e].
  { exists (Return v), r1, 1. cbn. split; [done|]. split; [lia|]. done. }
  unfold mbind, M_bind.
  set (r2 := if attempt <? m - 1
             then with_env r1 (env_sleep
                    (d * inject_Z (Z.of_nat (attempt + 1)))%Q (env r1))
             else r1).
  assert ((if attempt <? m - 1
           then sleep Env env_sleep (d * inject_Z (Z.of_nat (attempt + 1)))%Q
           else mret ()) r1 = (Return (), r2)) as ->.
  { unfold r2. by destruct (attempt <? m - 1). }
  assert (resolver_step (λ _, True) endpoint 0 r1 r2) as Hsleep.
  { unfold r2. destruct (attempt <? m - 1);
      [apply with_env_step|apply resolver_step_refl]. }
  destruct (IH (Some e) r2) as (res & r3 & k & -> & Hk & _ & Hrest).
  exists res, r3, (1 + (0 + k)). split; [done|]. cbn [length].
  split; [lia|]. split; [lia|].
  eapply resolver_step_trans; [done|]. by eapply resolver_step_trans.
Qed.

Lemma _make_request_step endpoint params r :
  ∃ res r' k,
    _make_request Env http_get env_sleep endpoint params r = (res, r')
    ∧ 1 ≤ k ≤ 3
    ∧ resolver_step (λ _, True) endpoint k r r'.
Proof.
  unfold _make_request, retry_on_failure.
  destruct (retry_request_step 3 1 endpoint params (seq 0 3) None r)
    as (res & r' & k & -> & Hk & Hk1 & Hstep).
  exists res, r', k. split; [done|]. split; [|done].
  cbn in Hk. split; [by apply Hk1|done].
Qed.

End ResolverMore.

Arguments cache_consistent {Env} _.
Arguments resolver_step {Env} _ _ _ _ _.

Lemma info_key_not_search_key (cid query : string) :
  "search_" +:+ query ≠ "info_" +:+ cid.
Proof. done. Qed.

Section ResolverSteps.
Variable Env : Type.
Variable http_get : string → list (string * string) → Env → result json * Env.
Variable time_time : Env → Q * Env.
Variable env_sleep : Q → Env → Env.
Implicit Types (r : TokenResolver Env) (key : string).

(** [get_token_info]: at most three requests for the coin, the entry
    [info_<id>] is the only one touched, and from a consistent cache the call
    returns. *)
Lemma get_token_info_step (cid : string) r :
  ∃ res r' k,
    get_token_info Env http_get time_time env_sleep cid r = (res, r')
    ∧ k ≤ 3
    ∧ resolver_step (λ key, key ≠ "info_" +:+ cid) ("coins/" +:+ cid) k r r'
    ∧ (cache_consistent r → ∃ v, res = Return v)
    ∧ (∀ info, res = Return (Some info) →
         _cache r' !! ("info_" +:+ cid) = Some (Some info)
         ∧ is_Some (_timestamps r' !! ("info_" +:+ cid))).
Proof.
  unfold get_token_info. unfold mbind at 1, M_bind at 1.
  destruct (AsyncCache_get_step Env time_time ("info_" +:+ cid) r ("coins/" +:+ cid))
    as (res & r1 & -> & Hget & Hret & Hsome & _).
  destruct res as [[info|]|e].
  - exists (Return (Some info)), r1, 0. split; [done|]. split; [lia|].
    split; [done|]. split; [eauto|]. intros info' [= <-].
    destruct (Hsome info eq_refl) as (_ & Hc & Ht & Hs). split; [done|].
    by rewrite Ht.
  - unfold try_except, mbind, M_bind.
    destruct (_make_request_step Env http_get env_sleep ("coins/" +:+ cid)
                [("localization", "false"); ("tickers", "false");
                 ("market_data", "false"); ("community_data", "false");
                 ("developer_data", "false")] r1)
      as (res & r2 & k & -> & [_ Hk] & Hreq).
    assert (resolver_step (λ key, key ≠ "info_" +:+ cid) ("coins/" +:+ cid)
              (0 + k) r r2) as Hr2.
    { eapply resolver_step_trans; [done|].
      by eapply resolver_step_weaken; [|done]. }
    destruct res as [[coins|data]|e].
    + exists (Return None), r2, (0 + k). unfold raise. split; [done|].
      split; [lia|]. split; [done|]. split; [eauto|]. done.
    + match goal with |- context [AsyncCache_set _ _ ?key ?value r2] =>
        destruct (AsyncCache_set_step Env time_time key value r2 ("coins/" +:+ cid))
          as (r3 & -> & Hset & Hc & Ht)
      end.
      eexists (Return (Some _)), r3, (0 + k + 0). split; [done|].
      split; [lia|]. split; [by eapply resolver_step_trans|].
      split; [eauto|]. intros info [= <-]. by rewrite Hc, Ht.
    + exists (Return None), r2, (0 + k). split; [done|].
      split; [lia|]. split; [done|]. split; [eauto|]. done.
  - exists (Raise e), r1, 0. split; [done|]. split; [lia|]. split; [done|].
    split; [|done]. intros Hcons. destruct (Hret Hcons) as [v Hv]. done.
Qed.

(** The search loop: at most three requests, all for one coin; the entries
    touched are those of the search key and of that coin; unless the loop
    returns a token, the entry of the search key is as it was or holds
    [None]. *)
Lemma search_coins_step key query_lower coins :
  (∀ cid, key ≠ "info_" +:+ cid) → ∀ r,
  ∃ res r' k cid,
    search_coins Env http_get time_time env_sleep key query_lower coins r = (res, r')
    ∧ k ≤ 3
    ∧ resolver_step (λ key', key' ≠ key ∧ key' ≠ "info_" +:+ cid)
        ("coins/" +:+ cid) k r r'
    ∧ ((∃ tok, res = Return (Some tok))
       ∨ _cache r' !! key = _cache r !! key
       ∨ _cache r' !! key = Some None).
Proof.
  intros Hkey. induction coins as [|coin coins IH]; intros r.
  { exists (Return None), r, 0, "". split; [done|]. split; [lia|].
    split; [apply resolver_step_refl|]. by right; left. }
  cbn [search_coins]. destruct (coin_matches query_lower coin); [|apply IH].
  destruct (coin_id coin) as [cid|].
  2: { exists (Raise (KeyError "id")), r, 0, "". split; [done|]. split; [lia|].
       split; [apply resolver_step_refl|]. by right; left. }
  unfold mbind, M_bind.
  destruct (get_token_info_step cid r) as (res & r1 & k & -> & Hk & Hinfo & _ & _).
  assert (_cache r1 !! key = _cache r !! key) as Hsame.
  { destruct Hinfo as (_ & _ & _ & Hframe). by apply Hframe. }
  destruct res as [coin_info|e].
  - destruct (AsyncCache_set_step Env time_time key coin_info r1 ("coins/" +:+ cid))
      as (r2 & -> & Hset & Hc & _).
    exists (Return coin_info), r2, (k + 0), cid. split; [done|]. split; [lia|].
    split.
    + eapply resolver_step_trans; eapply resolver_step_weaken; [|done| |done];
        by intros ? [? ?].
    + destruct coin_info as [tok|]; [left; eauto|]. by right; right.
  - exists (Raise e), r1, k, cid. split; [done|]. split; [lia|]. split.
    + eapply resolver_step_weaken; [|done]. by intros ? [? ?].
    + by right; left.
Qed.

(** [search_token]: at most three requests for the coin list followed by at
    most three for one coin. *)
Lemma search_token_step (query : string) r :
  ∃ res r' k1 k2 cid,
    search_token Env http_get time_time env_sleep query r = (res, r')
    ∧ k1 ≤ 3 ∧ k2 ≤ 3
    ∧ request_log r' =
        request_log r ++ replicate k1 "coins/list" ++ replicate k2 ("coins/" +:+ cid)
    ∧ ttl r' = ttl r
    ∧ (cache_consistent r → cache_consistent r' ∧ ∃ v, res = Return v)
    ∧ (res = Return None →
         1 ≤ k1
         ∧ (_cache r' !! ("search_" +:+ lower query) = None
            ∨ _cache r' !! ("search_" +:+ lower query) = Some None))
    ∧ (cache_consistent r →
       (∀ tok, _cache r !! ("search_" +:+ lower query) ≠ Some (Some tok)) →
       1 ≤ k1).
Proof.
  unfold search_token. unfold mbind at 1, M_bind at 1.
  destruct (AsyncCache_get_step Env time_time ("search_" +:+ lower query) r "coins/list")
    as (res & r1 & -> & Hget & Hret & Hsome & Hnone).
  destruct res as [[info|]|e].
  - exists (Return (Some info)), r1, 0, 0, "".
    destruct Hget as (Hlog & Httl & Hcons & _). split; [done|].
    do 2 (split; [lia|]). split; [done|]. split; [done|].
    split; [eauto|]. split; [done|].
    intros _ Hno. destruct (Hsome info eq_refl) as (Hc & _). by destruct (Hno info).
  - specialize (Hnone eq_refl).
    unfold try_except, mbind, M_bind.
    destruct (_make_request_step Env http_get env_sleep "coins/list"
                [("include_platform", "true")] r1)
      as (res & r2 & k1 & -> & [Hk1 Hk1'] & Hreq).
    assert (request_log r2 = request_log r ++ replicate k1 "coins/list"
            ∧ ttl r2 = ttl r ∧ (cache_consistent r → cache_consistent r2)
            ∧ _cache r2 !! ("search_" +:+ lower query)
              = _cache r1 !! ("search_" +:+ lower query)) as (Hlog2 & Httl2 & Hcons2 & Hc2).
    { destruct Hget as (Hl & Ht & Hc & _), Hreq as (Hl' & Ht' & Hc' & Hf').
      split_and!; [by rewrite Hl', Hl, app_nil_r|congruence|auto|by apply Hf']. }
    destruct res as [[coins|coin]|e].
    + destruct (search_coins_step ("search_" +:+ lower query) (lower query) coins
                  (λ cid, info_key_not_search_key cid (lower query)) r2)
        as (res & r3 & k2 & cid & -> & Hk2 & (Hl3 & Ht3 & Hc3 & _) & Hkeep).
      assert (request_log r3 = request_log r ++ replicate k1 "coins/list"
                ++ replicate k2 ("coins/" +:+ cid)) as Hlog3
        by by rewrite Hl3, Hlog2, app_assoc.
      rewrite Hc2 in Hkeep.
      destruct res as [found|e].
      * exists (Return found), r3, k1, k2, cid. split; [done|].
        do 3 (split; [done|]). split; [congruence|]. split; [eauto|].
        split; [|done]. intros [= ->]. split; [done|].
        destruct Hkeep as [[tok [=]] | [-> | ->]]; auto.
      * exists (Return None), r3, k1, k2, cid. split; [done|].
        do 3 (split; [done|]). split; [congruence|]. split; [eauto|].
        split; [|done]. intros _. split; [done|].
        destruct Hkeep as [[tok [=]] | [-> | ->]]; auto.
    + exists (Return None), r2, k1, 0, "". unfold raise. split; [done|].
      do 2 (split; [lia|]). cbn. rewrite app_nil_r.
      do 2 (split; [done|]). split; [eauto|]. split; [|done].
      intros _. split; [done|]. by rewrite Hc2.
    + exists (Return None), r2, k1, 0, "". split; [done|].
      do 2 (split; [lia|]). cbn. rewrite app_nil_r.
      do 2 (split; [done|]). split; [eauto|]. split; [|done].
      intros _. split; [done|]. by rewrite Hc2.
  - exists (Raise e), r1, 0, 0, "".
    destruct Hget as (Hlog & Httl & Hcons & _). split; [done|].
    do 2 (split; [lia|]). split; [done|]. split; [done|]. split.
    + intros Hc. destruct (Hret Hc) as [v Hv]. done.
    + split; [done|]. intros Hc. destruct (Hret Hc) as [v Hv]. done.
Qed.

End ResolverSteps.

(** X5: a value stored with [AsyncCache.set] is what [AsyncCache.get] of the
    same key returns while the clock read by [get] is less than the TTL after
    the clock read by [set], and then [get] changes nothing but the world;
    from the TTL on, [get] returns [None] and removes the key from both
    dictionaries of the cache, leaving the other keys alone. *)
Theorem AsyncCache_set_then_get (Env : Type) (time_time : Env → Q * Env)
    (key : string) (value : option TokenInfo) (r : TokenResolver Env) (later : Env) :
  let stored := (AsyncCache_set Env time_time key value r).2 in
  let age := ((time_time later).1 - (time_time (env r)).1)%Q in
  ((age < ttl r)%Q →
     AsyncCache_get Env time_time key (with_env stored later) =
       (Return value, with_env stored (time_time later).2))
  ∧ ((ttl r <= age)%Q →
     ∃ r',
       AsyncCache_get Env time_time key (with_env stored later) = (Return None, r')
       ∧ _cache r' !! key = None ∧ _timestamps r' !! key = None
       ∧ ∀ key', key' ≠ key →
           _cache r' !! key' = _cache r !! key'
           ∧ _timestamps r' !! key' = _timestamps r !! key').
Proof.
  cbn zeta. unfold AsyncCache_set, AsyncCache_get.
  destruct (time_time (env r)) as [now e] eqn:Hnow. cbn [snd fst].
  cbn [with_env _cache _timestamps env ttl request_log].
  rewrite !lookup_insert_eq.
  destruct (time_time later) as [now' e'] eqn:Hlater. cbn [fst snd]. split.
  - intros Hage%Qltb_lt. by rewrite Hage.
  - intros Hage%Qltb_ge. rewrite Hage. eexists. split; [done|]. cbn.
    rewrite !lookup_delete_eq. do 2 (split; [done|]).
    intros key' Hne. by rewrite !lookup_delete_ne, !lookup_insert_ne.
Qed.

(** X6: after [AsyncCache.clear] the cache is consistent whatever it was, and
    every [AsyncCache.get] misses: it returns [None] without reading the clock
    and without changing anything. *)
Theorem AsyncCache_clear_then_get (Env : Type) (time_time : Env → Q * Env)
    (key : string) (r : TokenResolver Env) :
  cache_consistent (AsyncCache_clear Env r).2
  ∧ AsyncCache_get Env time_time key (AsyncCache_clear Env r).2 =
      (Return None, (AsyncCache_clear Env r).2)
  ∧ env (AsyncCache_clear Env r).2 = env r
  ∧ request_log (AsyncCache_clear Env r).2 = request_log r.
Proof.
  split; [done|]. split; [|done].
  unfold AsyncCache_get, AsyncCache_clear. cbn. by rewrite lookup_empty.
Qed.

(** X7: a new resolver has a consistent cache (the two dictionaries have the
    same keys), and from a consistent cache [search_token] and
    [get_token_info] never raise: they return a token or [None], keep the
    cache consistent and keep the TTL, whatever the metadata service and the
    clock do. *)
Theorem search_token_never_raises (Env : Type)
    (http_get : string → list (string * string) → Env → result json * Env)
    (time_time : Env → Q * Env) (env_sleep : Q → Env → Env) :
  (∀ e : Env, cache_consistent (new_resolver e))
  ∧ (∀ query (r : TokenResolver Env),
       cache_consistent r →
       ∃ found r',
         search_token Env http_get time_time env_sleep query r = (Return found, r')
         ∧ cache_consistent r' ∧ ttl r' = ttl r)
  ∧ (∀ cid (r : TokenResolver Env),
       cache_consistent r →
       ∃ found r',
         get_token_info Env http_get time_time env_sleep cid r = (Return found, r')
         ∧ cache_consistent r' ∧ ttl r' = ttl r).
Proof.
  split; [done|]. split.
  - intros query r Hcons.
    destruct (search_token_step Env http_get time_time env_sleep query r)
      as (res & r' & k1 & k2 & cid & Hrun & _ & _ & _ & Httl & Hret & _).
    destruct (Hret Hcons) as (Hcons' & v & ->). by exists v, r'.
  - intros cid r Hcons.
    destruct (get_token_info_step Env http_get time_time env_sleep cid r)
      as (res & r' & k & Hrun & _ & (_ & Httl & Hc & _) & Hret & _).
    destruct (Hret Hcons) as (v & ->). exists v, r'. auto.
Qed.

(** X8: whatever the metadata service answers, one [search_token] sends at
    most three requests for [coins/list] followed by at most three requests
    for one [coins/<id>], and nothing else; it returns [None] only after at
    least one request for the list.  One [get_token_info] sends at most three
    requests, all for [coins/<id>]. *)
Theorem search_token_requests (Env : Type)
    (http_get : string → list (string * string) → Env → result json * Env)
    (time_time : Env → Q * Env) (env_sleep : Q → Env → Env)
    (query : string) (r : TokenResolver Env) :
  (∃ k1 k2 cid,
     k1 ≤ 3 ∧ k2 ≤ 3
     ∧ request_log (search_token Env http_get time_time env_sleep query r).2 =
         request_log r ++ replicate k1 "coins/list"
           ++ replicate k2 ("coins/" +:+ cid)
     ∧ ((search_token Env http_get time_time env_sleep query r).1 = Return None →
        1 ≤ k1))
  ∧ (∃ k,
       k ≤ 3
       ∧ request_log (get_token_info Env http_get time_time env_sleep query r).2 =
           request_log r ++ replicate k ("coins/" +:+ query)).
Proof.
  split.
  - destruct (search_token_step Env http_get time_time env_sleep query r)
      as (res & r' & k1 & k2 & cid & -> & Hk1 & Hk2 & Hlog & _ & _ & Hnone & _).
    exists k1, k2, cid. do 3 (split; [done|]). cbn. intros ->.
    by destruct (Hnone eq_refl).
  - destruct (get_token_info_step Env http_get time_time env_sleep query r)
      as (res & r' & k & -> & Hk & (Hlog & _) & _).
    by exists k.
Qed.


(** X9: a failed lookup is not remembered.  When [search_token(q)], from a
    consistent cache, returns [None], any later [search_token] for a case
    variant of [q], however little time has passed, asks the metadata service
    for the coin list again. *)
Theorem search_token_failure_not_cached (Env : Type)
    (http_get : string → list (string * string) → Env → result json * Env)
    (time_time : Env → Q * Env) (env_sleep : Q → Env → Env)
    (q q' : string) (r r' : TokenResolver Env) (later : Env) :
  cache_consistent r →
  case_variant q q' →
  search_token Env http_get time_time env_sleep q r = (Return None, r') →
  ∃ rest,
    request_log
      (search_token Env http_get time_time env_sleep q' (with_env r' later)).2
    = request_log r' ++ "coins/list" :: rest.
Proof.
  intros Hcons Hcase Hsearch.
  destruct (search_token_step Env http_get time_time env_sleep q r)
    as (res & r1 & k1 & k2 & cid & Hrun & _ & _ & _ & _ & Hret & Hnone & _).
  rewrite Hsearch in Hrun. injection Hrun as <- <-.
  destruct (Hret Hcons) as [Hcons' _]. destruct (Hnone eq_refl) as [_ Hkey].
  destruct (search_token_step Env http_get time_time env_sleep q' (with_env r' later))
    as (res & r2 & j1 & j2 & cid' & -> & _ & _ & Hlog & _ & _ & _ & Hagain).
  rewrite <- (case_variant_lower _ _ Hcase) in Hagain.
  assert (1 ≤ j1) as Hj1.
  { apply Hagain; [done|]. cbn. intros tok Htok.
    destruct Hkey as [Hk|Hk]; congruence. }
  destruct j1 as [|j1]; [lia|]. cbn in Hlog |- *. eauto.
Qed.

Lemma search_token_failure_not_cached_witness :
  ∃ rest,
    request_log
      (stub_search "DOGWIFHAT"
         (with_env (stub_search "dogwifhat" (new_resolver 0)).2 1)).2
    = request_log (stub_search "dogwifhat" (new_resolver 0)).2
        ++ "coins/list" :: rest.
Proof.
  apply (search_token_failure_not_cached nat stub_http_get stub_time stub_sleep
           "dogwifhat" "DOGWIFHAT" (new_resolver 0)).
  - reflexivity.
  - apply (case_variant_up "D"); [reflexivity|].
    apply (case_variant_up "O"); [reflexivity|].
    apply (case_variant_up "G"); [reflexivity|].
    apply (case_variant_up "W"); [reflexivity|].
    apply (case_variant_up "I"); [reflexivity|].
    apply (case_variant_up "F"); [reflexivity|].
    apply (case_variant_up "H"); [reflexivity|].
    apply (case_variant_up "A"); [reflexivity|].
    apply (case_variant_up "T"); [reflexivity|].
    apply case_variant_nil.
  - vm_compute. reflexivity.
Defined.

(** X10: when [get_token_info(id)] has returned a token, the token is cached
    under [info_<id>] with a time stamp, and a [get_token_info] of the same
    id made while the age of that entry is below the TTL returns it without a
    request and without changing the cache. *)
Theorem get_token_info_cached (Env : Type)
    (http_get : string → list (string * string) → Env → result json * Env)
    (time_time : Env → Q * Env) (env_sleep : Q → Env → Env)
    (cid : string) (r r' : TokenResolver Env) (info : TokenInfo) :
  get_token_info Env http_get time_time env_sleep cid r = (Return (Some info), r') →
  ∃ stamp,
    _cache r' !! ("info_" +:+ cid) = Some (Some info)
    ∧ _timestamps r' !! ("info_" +:+ cid) = Some stamp
    ∧ ∀ r3 : TokenResolver Env,
        _cache r3 !! ("info_" +:+ cid) = Some (Some info) →
        _timestamps r3 !! ("info_" +:+ cid) = Some stamp →
        ((time_time (env r3)).1 - stamp < ttl r3)%Q →
        get_token_info Env http_get time_time env_sleep cid r3 =
          (Return (Some info), with_env r3 (time_time (env r3)).2).
Proof.
  intros Hrun.
  destruct (get_token_info_step Env http_get time_time env_sleep cid r)
    as (res & r1 & k & Hrun' & _ & _ & _ & Hcached).
  rewrite Hrun in Hrun'. injection Hrun' as <- <-.
  destruct (Hcached info eq_refl) as (Hc & stamp & Ht).
  exists stamp. do 2 (split; [done|]).
  intros r3 Hc3 Ht3 Hfresh. unfold get_token_info, mbind, M_bind.
  by rewrite (AsyncCache_get_fresh Env time_time _ _ _ _ Hc3 Ht3 Hfresh).
Qed.

Lemma get_token_info_cached_witness :
  ∃ stamp,
    _cache (get_token_info nat stub_http_get stub_time stub_sleep "solana"
              (new_resolver 0)).2 !! "info_solana" = Some (Some sol_info)
    ∧ _timestamps (get_token_info nat stub_http_get stub_time stub_sleep "solana"
                     (new_resolver 0)).2 !! "info_solana" = Some stamp
    ∧ ∀ r3 : TokenResolver nat,
        _cache r3 !! "info_solana" = Some (Some sol_info) →
        _timestamps r3 !! "info_solana" = Some stamp →
        ((stub_time (env r3)).1 - stamp < ttl r3)%Q →
        get_token_info nat stub_http_get stub_time stub_sleep "solana" r3 =
          (Return (Some sol_info), with_env r3 (stub_time (env r3)).2).
Proof.
  apply (get_token_info_cached nat stub_http_get stub_time stub_sleep "solana"
           (new_resolver 0)).
  vm_compute. reflexivity.
Defined.

(** ** The lookups built on [search_token] *)

(** X11: [get_token_address], [get_all_addresses] and
    [get_token_symbol_for_cex] leave the resolver as one [search_token]
    does.  [get_token_address(token, platform)] returns an address exactly
    when [get_all_addresses(token)] has a non-empty address under the
    lowercased platform name, and then that address; so it never returns the
    empty string, and the case of the letters of [platform] does not matter.
    For a token that does not resolve the three return [None], the empty
    mapping and [None]. *)
Theorem get_token_address_spec (Env : Type)
    (http_get : string → list (string * string) → Env → result json * Env)
    (time_time : Env → Q * Env) (env_sleep : Q → Env → Env)
    (token platform platform' : string) (r : TokenResolver Env) :
  (get_token_address Env http_get time_time env_sleep token platform r).2
    = (search_token Env http_get time_time env_sleep token r).2
  ∧ (get_all_addresses Env http_get time_time env_sleep token r).2
    = (search_token Env http_get time_time env_sleep token r).2
  ∧ (get_token_symbol_for_cex Env http_get time_time env_sleep token r).2
    = (search_token Env http_get time_time env_sleep token r).2
  ∧ (∀ a,
       (get_token_address Env http_get time_time env_sleep token platform r).1
         = Return (Some a)
       ↔ a ≠ ""
         ∧ ∃ m, (get_all_addresses Env http_get time_time env_sleep token r).1
                  = Return m
                ∧ m !! lower platform = Some a)
  ∧ (case_variant platform platform' →
       get_token_address Env http_get time_time env_sleep token platform' r
       = get_token_address Env http_get time_time env_sleep token platform r)
  ∧ ((search_token Env http_get time_time env_sleep token r).1 = Return None →
       (get_token_address Env http_get time_time env_sleep token platform r).1
         = Return None
       ∧ (get_all_addresses Env http_get time_time env_sleep token r).1 = Return ∅
       ∧ (get_token_symbol_for_cex Env http_get time_time env_sleep token r).1
         = Return None).
Proof.
  unfold get_token_address, get_all_addresses, get_token_symbol_for_cex,
    mbind, M_bind, mret, M_ret.
  destruct (search_token Env http_get time_time env_sleep token r)
    as [[[info|]|e] r'] eqn:Hsearch; cbn [fst snd].
  - split.
    { destruct (info_platforms info !! lower platform) as [a|]; [|done].
      by destruct (String.eqb a ""). }
    do 2 (split; [done|]). split; [|split; [|done]].
    + intros a. destruct (info_platforms info !! lower platform) as [a'|] eqn:Hm.
      * destruct (String.eqb a' "") eqn:E; cbn.
        -- apply String.eqb_eq in E as ->. split; [done|].
           intros (Hne & m & [= <-] & Ha). congruence.
        -- apply String.eqb_neq in E. split.
           ++ intros [= <-]. split; [done|]. eauto.
           ++ intros (_ & m & [= <-] & Ha). congruence.
      * cbn. split; [done|]. intros (_ & m & [= <-] & Ha). congruence.
    + intros Hcase. by rewrite (case_variant_lower _ _ Hcase).
  - repeat split; try done. intros (_ & m & [= <-] & Ha).
    by rewrite lookup_empty in Ha.
  - repeat split; try done. by intros (_ & m & [=] & _).
Qed.

(** ** The platform addresses *)

Lemma standard_name_known (items : list (string * string)) our cg :
  NoDup items.*2 → (our, cg) ∈ items → standard_name items cg = our.
Proof.
  induction items as [|[o c] items IH]; intros Hnd Hin.
  { by apply elem_of_nil in Hin. }
  cbn in Hnd. apply NoDup_cons in Hnd as [Hc Hnd]. cbn.
  destruct (String.eqb c cg) eqn:E.
  - apply String.eqb_eq in E as ->.
    apply elem_of_cons in Hin as [[= -> ]|Hin]; [done|].
    exfalso. apply Hc. apply list_elem_of_fmap. by exists (our, cg).
  - apply String.eqb_neq in E.
    apply elem_of_cons in Hin as [[= -> ->]|Hin]; [done|]. by apply IH.
Qed.

Lemma standard_name_unknown (items : list (string * string)) platform :
  platform ∉ items.*2 → standard_name items platform = platform.
Proof.
  induction items as [|[o c] items IH]; intros Hnot; [done|].
  cbn in Hnot. apply not_elem_of_cons in Hnot as [Hne Hnot]. cbn.
  destruct (String.eqb c platform) eqn:E; [|by apply IH].
  apply String.eqb_eq in E. congruence.
Qed.

(** A stored entry was already there or comes from an item with an address
    that is not empty. *)
Lemma extract_platforms_origin items : ∀ acc k a,
  extract_platforms items acc !! k = Some a →
  acc !! k = Some a
  ∨ (a ≠ "" ∧ ∃ platform, (platform, a) ∈ items
                          ∧ standard_name PLATFORM_MAP platform = k).
Proof.
  induction items as [|[p addr] items IH]; intros acc k a Hk; [by left|].
  cbn [extract_platforms] in Hk. apply IH in Hk as [Hk|(Hne & p' & Hin & Hp')].
  - destruct (String.eqb addr "") eqn:E; [by left|].
    apply String.eqb_neq in E.
    destruct (decide (standard_name PLATFORM_MAP p = k)) as [<-|Hne].
    + rewrite lookup_insert_eq in Hk. injection Hk as ->.
      right. split; [done|]. exists p. split; [apply list_elem_of_here|done].
    + rewrite lookup_insert_ne in Hk by done. by left.
  - right. split; [done|]. exists p'. split; [by apply list_elem_of_further|done].
Qed.

Lemma extract_platforms_skip items k : ∀ acc,
  (∀ p a, (p, a) ∈ items → a ≠ "" → standard_name PLATFORM_MAP p ≠ k) →
  extract_platforms items acc !! k = acc !! k.
Proof.
  induction items as [|[p addr] items IH]; intros acc Hnone; [done|].
  cbn [extract_platforms]. rewrite IH.
  - destruct (String.eqb addr "") eqn:E; [done|]. apply String.eqb_neq in E.
    rewrite lookup_insert_ne; [done|].
    apply (Hnone p addr); [apply list_elem_of_here|done].
  - intros p' a' Hin. apply Hnone. by apply list_elem_of_further.
Qed.

(** X12: the platform mapping [get_token_info] builds from the items of the
    service's [platforms] never holds an empty address; each entry is the
    address of an item, stored under our name of the item's platform
    ([bsc] for [binance-smart-chain], [polygon] for [polygon-pos],
    [ethereum] and [solana] as they are, any other name unchanged); and the
    last item with an address for a name is the one that is stored. *)
Theorem extract_platforms_spec (items : list (string * string)) :
  (∀ our cg, (our, cg) ∈ PLATFORM_MAP → standard_name PLATFORM_MAP cg = our)
  ∧ (∀ platform, platform ∉ PLATFORM_MAP.*2 →
       standard_name PLATFORM_MAP platform = platform)
  ∧ (∀ k a, extract_platforms items ∅ !! k = Some a →
       a ≠ "" ∧ ∃ platform, (platform, a) ∈ items
                            ∧ standard_name PLATFORM_MAP platform = k)
  ∧ (∀ before platform a after,
       items = before ++ (platform, a) :: after →
       a ≠ "" →
       (∀ p' a', (p', a') ∈ after → a' ≠ "" →
          standard_name PLATFORM_MAP p' ≠ standard_name PLATFORM_MAP platform) →
       extract_platforms items ∅ !! standard_name PLATFORM_MAP platform = Some a).
Proof.
  split.
  { intros our cg. apply standard_name_known.
    apply (bool_decide_unpack (NoDup PLATFORM_MAP.*2)). by vm_compute. }
  split; [apply standard_name_unknown|]. split.
  - intros k a Hk. apply extract_platforms_origin in Hk as [Hk|Hk]; [|done].
    by rewrite lookup_empty in Hk.
  - intros before platform a after -> Hne Hafter.
    generalize (∅ : gmap string string).
    induction before as [|[p addr] before IH]; intros acc.
    + cbn [app extract_platforms].
      apply String.eqb_neq in Hne. rewrite Hne.
      rewrite extract_platforms_skip by done. apply lookup_insert_eq.
    + cbn [app extract_platforms]. apply IH.
Qed.

(** ** utils.py: the color of a difference *)

(** [get_price_color]; the default of [threshold] is 0.5. *)
Definition get_price_color {N : Number} (diff_percent threshold : num) : string :=
  let abs_diff := nabs diff_percent in
  if nleb (nmul threshold (of_int 3)) abs_diff then
    if nltb nzero diff_percent then "bright_red" else "bright_green"
  else if nleb (nmul threshold (of_int 2)) abs_diff then
    if nltb nzero diff_percent then "red" else "green"
  else if nleb threshold abs_diff then "yellow"
  else "white".

Lemma Qabs_cases (d : Q) :
  ((0 <= d)%Q ∧ (Qabs d == d)%Q) ∨ ((d <= 0)%Q ∧ (Qabs d == - d)%Q).
Proof.
  destruct (Qlt_le_dec d 0) as [H|H].
  - right. split; [lra|]. apply Qabs_neg. lra.
  - left. split; [done|]. by apply Qabs_pos.
Qed.

(** X13: in exact arithmetic and for a threshold [t] above zero,
    [get_price_color(d, t)] is "white" exactly for [|d| < t], "yellow" for
    [t <= |d| < 2t], "red" for [2t <= d < 3t], "green" for
    [-3t < d <= -2t], "bright_red" for [d >= 3t] and "bright_green" for
    [d <= -3t].  For a threshold that is not above zero no difference is
    "white", "yellow", "red" or "green": the color is "bright_red" above zero
    and "bright_green" otherwise, also for the difference 0. *)
Theorem get_price_color_bands (d t : Q) :
  ((0 < t)%Q →
     (get_price_color (N := QNumber) d t = "white" ↔ (Qabs d < t)%Q)
     ∧ (get_price_color (N := QNumber) d t = "yellow"
        ↔ (t <= Qabs d)%Q ∧ (Qabs d < t * 2)%Q)
     ∧ (get_price_color (N := QNumber) d t = "red"
        ↔ (t * 2 <= d)%Q ∧ (d < t * 3)%Q)
     ∧ (get_price_color (N := QNumber) d t = "green"
        ↔ (- (t * 3) < d)%Q ∧ (d <= - (t * 2))%Q)
     ∧ (get_price_color (N := QNumber) d t = "bright_red" ↔ (t * 3 <= d)%Q)
     ∧ (get_price_color (N := QNumber) d t = "bright_green"
        ↔ (d <= - (t * 3))%Q))
  ∧ ((t <= 0)%Q →
     get_price_color (N := QNumber) d t =
       if Qltb 0 d then "bright_red" else "bright_green").
Proof.
  unfold get_price_color.
  change (@nleb QNumber) with Qle_bool. change (@nltb QNumber) with Qltb.
  change (@nabs QNumber) with Qabs. change (@nmul QNumber) with Qmult.
  change (@nzero QNumber) with 0%Q.
  change (@of_int QNumber 3) with 3%Q. change (@of_int QNumber 2) with 2%Q.
  destruct (Qle_bool (t * 3) (Qabs d)) eqn:E3;
    [apply Qle_bool_iff in E3
    |assert (Qabs d < t * 3)%Q as E3'
       by (apply Qnot_le_lt; intros ?%Qle_bool_iff; congruence); clear E3];
  (destruct (Qle_bool (t * 2) (Qabs d)) eqn:E2;
    [apply Qle_bool_iff in E2
    |assert (Qabs d < t * 2)%Q as E2'
       by (apply Qnot_le_lt; intros ?%Qle_bool_iff; congruence); clear E2]);
  (destruct (Qle_bool t (Qabs d)) eqn:E1;
    [apply Qle_bool_iff in E1
    |assert (Qabs d < t)%Q as E1'
       by (apply Qnot_le_lt; intros ?%Qle_bool_iff; congruence); clear E1]);
  (destruct (Qltb 0 d) eqn:E0; [apply Qltb_lt in E0|apply Qltb_ge in E0]);
  (destruct (Qabs_cases d) as [[Hs Ha]|[Hs Ha]]; rewrite Ha in *);
  (split; [intros Ht; repeat split; intros; try discriminate; try lra
          |intros Ht; try reflexivity; exfalso; lra]).
Qed.

(** ** The retry wrapper: its bounds *)

Definition Qsum (l : list Q) : Q := foldr Qplus 0%Q l.

Lemma Qsum_app (l1 l2 : list Q) : (Qsum (l1 ++ l2) == Qsum l1 + Qsum l2)%Q.
Proof.
  unfold Qsum. induction l1 as [|x l1 IH]; cbn [app foldr]; [lra|].
  rewrite IH. lra.
Qed.

Lemma Qsum_linear_backoff (d : Q) (k : nat) :
  (2 * Qsum ((λ j, d * inject_Z (Z.of_nat j)) <$> seq 1 k)
   == d * inject_Z (Z.of_nat k) * inject_Z (Z.of_nat (k + 1)))%Q.
Proof.
  induction k as [|k IH].
  { change (inject_Z (Z.of_nat 0)) with 0%Q. change (Qsum _) with 0%Q. lra. }
  rewrite seq_S, fmap_app, Qsum_app.
  change (Qsum ((λ j, (d * inject_Z (Z.of_nat j))%Q) <$> [(1 + k)%nat]))
    with (d * inject_Z (Z.of_nat (1 + k)%nat) + 0)%Q.
  replace (S k + 1) with (S (S k)) by lia. replace (1 + k) with (S k) by lia.
  rewrite !of_int_S.
  replace (k + 1) with (S k) in IH by lia. rewrite of_int_S in IH. lra.
Qed.

(** X14: with [max_retries = 0] the wrapper never invokes the operation and
    raises a [TypeError] (it raises [None]).  With [max_retries = m + 1], when
    every attempt fails, the operation has been invoked [m + 1] times and the
    sleeps add up to [delay * m * (m + 1) / 2]: three seconds for the defaults
    3 and 1.0. *)
Theorem retry_on_failure_worst_case {S T : Type} (d : Q) (func : M S T) (s : S) :
  retry_on_failure observed_sleep 0 d (observed func) ([], s) =
    (Raise (TypeError "exceptions must derive from BaseException"), ([], s))
  ∧ ∀ m,
      (∀ i, i ≤ m → fails_at func s i) →
      ∃ e,
        (outcome_at func s m).1 = Raise e
        ∧ (retry_on_failure observed_sleep (Datatypes.S m) d (observed func)
             ([], s)).1 = Raise e
        ∧ invocations
            (retry_on_failure observed_sleep (Datatypes.S m) d (observed func)
               ([], s)).2.1 = Datatypes.S m
        ∧ (2 * Qsum (sleeps
             (retry_on_failure observed_sleep (Datatypes.S m) d (observed func)
                ([], s)).2.1)
           == d * inject_Z (Z.of_nat m) * inject_Z (Z.of_nat (m + 1)))%Q.
Proof.
  split; [done|]. intros m Hfail.
  destruct (Hfail m (le_n m)) as [e He]. exists e. split; [done|].
  unfold retry_on_failure.
  rewrite (retry_loop_exhausted (Datatypes.S m) d func m 0 None [] s e);
    [|lia| |done].
  2: { intros i Hi. apply Hfail. lia. }
  cbn [fst snd app]. split; [done|].
  rewrite invocations_trace_from, sleeps_trace_from. split; [done|].
  apply Qsum_linear_backoff.
Qed.

(** ** config.py *)

(** A value of the configuration, as [yaml.safe_load] or the default
    dictionary gives it. *)
#[warnings="-register-all"]
Inductive yaml : Type :=
| YNone
| YBool (b : bool)
| YInt (z : Z)
| YFloat (q : Q)
| YStr (s : string)
| YList (l : list yaml)
| YDict (m : gmap string yaml).

(** [key.split('.')] *)
Fixpoint split_dot (s : string) : list string :=
  match s with
  | EmptyString => [EmptyString]
  | String c s' =>
      if Ascii.eqb c "." then EmptyString :: split_dot s'
      else match split_dot s' with
           | w :: ws => String c w :: ws
           | [] => [String c EmptyString]
           end
  end.

(** The loop of [Config.get] over the keys, from [value]. *)
Fixpoint get_keys (keys : list string) (value fallback : yaml) : yaml :=
  match keys with
  | [] => value
  | k :: keys' =>
      match value with
      | YDict m =>
          match m !! k with
          | Some YNone | None => fallback
          | Some value' => get_keys keys' value' fallback
          end
      | _ => fallback
      end
  end.

(** [Config.get(key, default)] on the configuration [config]. *)
Definition Config_get (config : yaml) (key : string) (fallback : yaml) : yaml :=
  get_keys (split_dot key) config fallback.




(** A string without a dot. *)
Fixpoint dot_free (s : string) : bool :=
  match s with
  | EmptyString => true
  | String c s' => negb (Ascii.eqb c ".") && dot_free s'
  end.

Lemma split_dot_nonempty (s : string) : split_dot s ≠ [].
Proof.
  induction s as [|c s IH]; [done|]. cbn [split_dot].
  destruct (Ascii.eqb c "."); [done|]. by destruct (split_dot s).
Qed.

Lemma split_dot_free (s : string) : dot_free s = true → split_dot s = [s].
Proof.
  induction s as [|c s IH]; [done|]. cbn [split_dot dot_free].
  intros [Hc Hs]%andb_true_iff. apply negb_true_iff in Hc. rewrite Hc.
  by rewrite (IH Hs).
Qed.

Lemma split_dot_segment (seg rest : string) :
  dot_free seg = true → split_dot (seg +:+ "." +:+ rest) = seg :: split_dot rest.
Proof.
  induction seg as [|c seg IH]; [done|].
  change (String c seg +:+ "." +:+ rest) with (String c (seg +:+ "." +:+ rest)).
  cbn [split_dot dot_free]. intros [Hc Hs]%andb_true_iff. apply negb_true_iff in Hc. rewrite Hc.
  by rewrite (IH Hs).
Qed.

Lemma split_dot_concat (segments : list string) :
  segments ≠ [] → Forall (λ seg, dot_free seg = true) segments →
  split_dot (String.concat "." segments) = segments.
Proof.
  induction segments as [|seg segments IH]; [done|]. intros _ Hall.
  apply Forall_cons in Hall as [Hseg Hall].
  destruct segments as [|seg' segments].
  - cbn. by apply split_dot_free.
  - change (String.concat "." (seg :: seg' :: segments))
      with (seg +:+ "." +:+ String.concat "." (seg' :: segments)).
    rewrite split_dot_segment by done. by rewrite IH.
Qed.

Lemma get_keys_not_None keys : ∀ value fallback,
  keys ≠ [] → get_keys keys value fallback = YNone → fallback = YNone.
Proof.
  induction keys as [|k keys IH]; intros value fallback Hne; [done|].
  cbn. destruct value as [| | | | | |m]; try done.
  destruct (m !! k) as [value'|]; [|done].
  destruct keys as [|k' keys].
  - cbn. by destruct value'.
  - destruct value'; try done; by apply IH.
Qed.

(** X15: [Config.get] never returns [None] when its default is not [None];
    on a configuration that is not a dictionary it returns the default; on a
    dictionary, for a first segment without a dot, it returns the default
    when the segment is missing or holds [None], the value itself when the
    key has no further segment, and otherwise what [get] returns on that value
    for the rest of the key.  Splitting the dotted key gives back the
    segments it was joined from. *)
Theorem Config_get_spec (config : yaml) (m : gmap string yaml)
    (key segment rest : string) (fallback : yaml) :
  (Config_get config key fallback = YNone → fallback = YNone)
  ∧ ((∀ m', config ≠ YDict m') → Config_get config key fallback = fallback)
  ∧ (dot_free segment = true →
       Config_get (YDict m) segment fallback =
         match m !! segment with
         | Some YNone | None => fallback
         | Some value => value
         end
       ∧ Config_get (YDict m) (segment +:+ "." +:+ rest) fallback =
           match m !! segment with
           | Some YNone | None => fallback
           | Some value => Config_get value rest fallback
           end)
  ∧ (∀ segments,
       segments ≠ [] → Forall (λ seg, dot_free seg = true) segments →
       split_dot (String.concat "." segments) = segments).
Proof.
  split; [apply get_keys_not_None, split_dot_nonempty|]. split.
  { intros Hnot. unfold Config_get.
    pose proof (split_dot_nonempty key). destruct (split_dot key); [done|].
    cbn. destruct config; try done. by destruct (Hnot m0). }
  split; [|apply split_dot_concat].
  intros Hfree. unfold Config_get.
  rewrite split_dot_free, split_dot_segment by done. cbn.
  destruct (m !! segment) as [[]|]; done.
Qed.

(** ** price_checker.py: setting up the exchanges *)

#[export] Instance ExchangeClass_eq_dec : EqDecision ExchangeClass.
Proof. solve_decision. Defined.


Section SetupExchanges.
Context {N : Number}.
(** What the adapter of a class, built from its constructor arguments, answers
    to [get_price]. *)
Variable connect : ExchangeClass → list yaml → list string → result (ExchangePrice N).












End SetupExchanges.



(** ** The orchestrator never raises *)




Section CheckerFacts.
Context {N : Number}.
Variable Env : Type.
Variable http_get : string → list (string * string) → Env → result json * Env.
Variable time_time : Env → Q * Env.
Variable env_sleep : Q → Env → Env.


End CheckerFacts.






(** ** Which queries share a cache entry *)





(** ** The tokens the resolver hands out *)

Lemma upper_ascii_idemp (c : ascii) : upper_ascii (upper_ascii c) = upper_ascii c.
Proof. by destruct c as [[] [] [] [] [] [] [] []]. Qed.

Lemma upper_idemp (s : string) : upper (upper s) = upper s.
Proof. induction s as [|c s IH]; cbn; [done|]. by rewrite upper_ascii_idemp, IH. Qed.

(** A token as [get_token_info] builds it: its symbol is in upper case and
    none of its addresses is empty. *)
Definition well_formed_info (info : TokenInfo) : Prop :=
  upper (info_symbol info) = info_symbol info
  ∧ ∀ k a, info_platforms info !! k = Some a → a ≠ "".

Definition cache_well_formed {Env : Type} (r : TokenResolver Env) : Prop :=
  ∀ key info, _cache r !! key = Some (Some info) → well_formed_info info.

Section WellFormed.
Variable Env : Type.
Variable http_get : string → list (string * string) → Env → result json * Env.
Variable time_time : Env → Q * Env.
Variable env_sleep : Q → Env → Env.
Implicit Types (r : TokenResolver Env) (key : string).

Lemma AsyncCache_get_wf key r :
  cache_well_formed r →
  cache_well_formed (AsyncCache_get Env time_time key r).2
  ∧ ∀ info, (AsyncCache_get Env time_time key r).1 = Return (Some info) →
      well_formed_info info.
Proof.
  intros Hwf. unfold AsyncCache_get.
  destruct (_cache r !! key) as [value|] eqn:Hc; [|done].
  destruct (time_time (env r)) as [now e].
  destruct (_timestamps r !! key) as [stamp|]; [|done].
  destruct (Qltb _ _); cbn.
  - split; [done|]. intros info [= ->]. by apply (Hwf key).
  - split; [|done]. intros k info Hk. cbn in Hk.
    apply lookup_delete_Some in Hk as [_ Hk]. by apply (Hwf k).
Qed.

Lemma AsyncCache_set_wf key value r :
  cache_well_formed r →
  (∀ info, value = Some info → well_formed_info info) →
  cache_well_formed (AsyncCache_set Env time_time key value r).2.
Proof.
  intros Hwf Hvalue. unfold AsyncCache_set.
  destruct (time_time (env r)) as [now e]. intros k info Hk. cbn in Hk.
  destruct (decide (key = k)) as [->|Hne].
  - rewrite lookup_insert_eq in Hk. injection Hk as ->. by apply Hvalue.
  - rewrite lookup_insert_ne in Hk by done. by apply (Hwf k).
Qed.

Lemma _make_request_wf endpoint params r :
  cache_well_formed r →
  cache_well_formed (_make_request Env http_get env_sleep endpoint params r).2.
Proof.
  intros Hwf.
  destruct (_make_request_step Env http_get env_sleep endpoint params r)
    as (res & r' & k & -> & _ & (_ & _ & _ & Hframe)).
  intros key info Hk. cbn in Hk.
  destruct (Hframe key I) as [Hc _]. rewrite Hc in Hk. by apply (Hwf key).
Qed.

Lemma get_token_info_wf (cid : string) r res r' :
  cache_well_formed r →
  get_token_info Env http_get time_time env_sleep cid r = (res, r') →
  cache_well_formed r' ∧ ∀ info, res = Return (Some info) → well_formed_info info.
Proof.
  intros Hwf. unfold get_token_info, mbind, M_bind.
  destruct (AsyncCache_get_wf ("info_" +:+ cid) r Hwf) as [Hwf1 Hres1].
  destruct (AsyncCache_get Env time_time ("info_" +:+ cid) r) as [[[info|]|e] r1];
    cbn [fst snd] in *.
  - intros [= <- <-]. split; [done|]. intros info' [= <-]. by apply Hres1.
  - unfold try_except.
    match goal with |- context [_make_request _ _ _ ?ep ?ps r1] =>
      pose proof (_make_request_wf ep ps r1 Hwf1) as Hwf2;
      destruct (_make_request Env http_get env_sleep ep ps r1)
        as [[[coins|data]|e] r2]
    end; cbn [fst snd] in *; try (by intros [= <- <-]).
    match goal with |- context [AsyncCache_set _ _ ?key (Some ?info) r2] =>
      assert (well_formed_info info) as Hinfo
    end.
    { split; cbn.
      - apply upper_idemp.
      - intros k a Hk. by apply extract_platforms_origin in Hk as [Hk|[Hne _]]. }
    match goal with |- context [AsyncCache_set _ _ ?key ?value r2] =>
      pose proof (AsyncCache_set_wf key value r2 Hwf2) as Hwf3;
      destruct (AsyncCache_set Env time_time key value r2) as [[[]|e] r3]
    end; cbn [fst snd] in *; intros [= <- <-].
    + split.
      * apply Hwf3. by intros info [= <-].
      * by intros info [= <-].
    + split; [|done]. apply Hwf3. by intros info [= <-].
  - by intros [= <- <-].
Qed.

Lemma search_coins_wf key query_lower coins : ∀ r res r',
  cache_well_formed r →
  search_coins Env http_get time_time env_sleep key query_lower coins r = (res, r') →
  cache_well_formed r' ∧ ∀ info, res = Return (Some info) → well_formed_info info.
Proof.
  induction coins as [|coin coins IH]; intros r res r' Hwf.
  { by intros [= <- <-]. }
  cbn [search_coins]. destruct (coin_matches query_lower coin); [|by apply IH].
  destruct (coin_id coin) as [cid|]; [|by intros [= <- <-]].
  unfold mbind, M_bind.
  destruct (get_token_info Env http_get time_time env_sleep cid r)
    as [[coin_info|e] r1] eqn:Hinfo;
    destruct (get_token_info_wf cid r _ _ Hwf Hinfo) as [Hwf1 Hres1];
    [|by intros [= <- <-]].
  pose proof (AsyncCache_set_wf key coin_info r1 Hwf1) as Hwf2.
  destruct (AsyncCache_set Env time_time key coin_info r1) as [[[]|e] r2];
    cbn [fst snd] in *; intros [= <- <-].
  - split.
    + apply Hwf2. intros info ->. by apply Hres1.
    + intros info [= ->]. by apply Hres1.
  - split; [|done]. apply Hwf2. intros info ->. by apply Hres1.
Qed.

Lemma search_token_wf (query : string) r res r' :
  cache_well_formed r →
  search_token Env http_get time_time env_sleep query r = (res, r') →
  cache_well_formed r' ∧ ∀ info, res = Return (Some info) → well_formed_info info.
Proof.
  intros Hwf. unfold search_token, mbind, M_bind.
  destruct (AsyncCache_get_wf ("search_" +:+ lower query) r Hwf) as [Hwf1 Hres1].
  destruct (AsyncCache_get Env time_time ("search_" +:+ lower query) r)
    as [[[info|]|e] r1]; cbn [fst snd] in *.
  - intros [= <- <-]. split; [done|]. intros info' [= <-]. by apply Hres1.
  - unfold try_except.
    pose proof (_make_request_wf "coins/list" [("include_platform", "true")] r1 Hwf1)
      as Hwf2.
    destruct (_make_request Env http_get env_sleep "coins/list"
                [("include_platform", "true")] r1) as [[[coins|coin]|e] r2];
      cbn [fst snd] in *; try (by intros [= <- <-]).
    destruct (search_coins Env http_get time_time env_sleep _ _ coins r2)
      as [[found|e] r3] eqn:Hcoins;
      destruct (search_coins_wf _ _ _ _ _ _ Hwf2 Hcoins) as [Hwf3 Hres3];
      intros [= <- <-]; [|done].
    split; [done|]. intros info [= ->]. by apply Hres3.
  - by intros [= <- <-].
Qed.

End WellFormed.

(** X20: every token the resolver hands out has a symbol in upper case
    ([symbol.upper() == symbol]) and no empty address.  The cache of a new
    resolver holds only such tokens (it is empty), [search_token] keeps that
    and returns only such tokens, so the symbol
    [get_token_symbol_for_cex] returns is in upper case. *)
Theorem resolver_tokens_well_formed (Env : Type)
    (http_get : string → list (string * string) → Env → result json * Env)
    (time_time : Env → Q * Env) (env_sleep : Q → Env → Env) :
  (∀ e : Env, cache_well_formed (new_resolver e))
  ∧ (∀ query (r : TokenResolver Env),
       cache_well_formed r →
       cache_well_formed (search_token Env http_get time_time env_sleep query r).2
       ∧ ∀ info,
           (search_token Env http_get time_time env_sleep query r).1
             = Return (Some info) →
           upper (info_symbol info) = info_symbol info
           ∧ ∀ k a, info_platforms info !! k = Some a → a ≠ "")
  ∧ (∀ token (r : TokenResolver Env) symbol,
       cache_well_formed r →
       (get_token_symbol_for_cex Env http_get time_time env_sleep token r).1
         = Return (Some symbol) →
       upper symbol = symbol).
Proof.
  split; [|split].
  - intros e key info Hk. cbn in Hk. by rewrite lookup_empty in Hk.
  - intros query r Hwf.
    destruct (search_token Env http_get time_time env_sleep query r)
      as [res r'] eqn:Hrun.
    by destruct (search_token_wf Env http_get time_time env_sleep query r res r'
                   Hwf Hrun).
  - intros token r symbol Hwf. unfold get_token_symbol_for_cex, mbind, M_bind.
    destruct (search_token Env http_get time_time env_sleep token r)
      as [res r'] eqn:Hrun.
    destruct (search_token_wf Env http_get time_time env_sleep token r res r'
                Hwf Hrun) as [_ Hres].
    destruct res as [[info|]|e]; cbn; [|done..].
    intros [= <-]. by apply (Hres info).
Qed.

(** ** utils.py: the sign of a difference *)

Lemma Qinv_sign (p : Q) :
  ((0 < p)%Q → (0 < / p)%Q) ∧ ((p < 0)%Q → (/ p < 0)%Q).
Proof.
  split; [apply Qinv_lt_0_compat|]. intros Hp.
  assert (p * / p == 1)%Q as Hinv by (apply Qmult_inv_r; lra).
  destruct (Qlt_le_dec (/ p) 0) as [H|H]; [done|]. exfalso. nra.
Qed.

(** X21: in exact arithmetic [calculate_price_difference(p1, p2)] is 0 when
    [p2] is 0 and [(p1 - p2) / p2 * 100] otherwise.  For [p2 > 0] its sign is
    the sign of [p1 - p2], as the docstring says; for [p2 < 0] the sign is the
    opposite.  The difference is not symmetric: for [0 < p1 <= p2] its
    absolute value is at most that of [calculate_price_difference(p2, p1)],
    the two being equal only for equal prices. *)
Theorem calculate_price_difference_sign (p1 p2 : Q) :
  ∃ d,
    calculate_price_difference (N := QNumber) p1 p2 = Return d
    ∧ ((p2 == 0)%Q → d = 0%Q)
    ∧ (¬ (p2 == 0)%Q → d = ((p1 - p2) / p2 * 100)%Q)
    ∧ ((0 < p2)%Q →
         ((0 < d)%Q ↔ (p2 < p1)%Q) ∧ ((d < 0)%Q ↔ (p1 < p2)%Q)
         ∧ ((d == 0)%Q ↔ (p1 == p2)%Q))
    ∧ ((p2 < 0)%Q → ((0 < d)%Q ↔ (p1 < p2)%Q) ∧ ((d < 0)%Q ↔ (p2 < p1)%Q))
    ∧ ((0 < p1)%Q → (p1 <= p2)%Q →
         ∃ d',
           calculate_price_difference (N := QNumber) p2 p1 = Return d'
           ∧ (Qabs d <= Qabs d')%Q
           ∧ ((Qabs d == Qabs d')%Q → (p1 == p2)%Q)).
Proof.
  unfold calculate_price_difference, div.
  change (@neqb QNumber) with Qeq_bool. change (@nzero QNumber) with 0%Q.
  change (@nmul QNumber) with Qmult. change (@ndiv_raw QNumber) with Qdiv.
  change (@nsub QNumber) with Qminus. change (@nhundred QNumber) with 100%Q.
  destruct (Qeq_bool p2 0) eqn:E2.
  { apply Qeq_bool_iff in E2. exists 0%Q. split; [done|]. split; [done|].
    split; [done|]. split; [lra|]. split; [lra|]. intros. lra. }
  assert (¬ (p2 == 0)%Q) as Hp2 by (intros ?%Qeq_bool_iff; congruence).
  cbn. exists ((p1 - p2) / p2 * 100)%Q. split; [done|]. split; [done|].
  split; [done|].
  destruct (Qinv_sign p2) as [Hpos Hneg]. unfold Qdiv.
  split; [|split].
  - intros Hp. specialize (Hpos Hp). repeat split; intros; nra.
  - intros Hp. specialize (Hneg Hp). repeat split; intros; nra.
  - intros Hp1 Hle.
    assert (Qeq_bool p1 0 = false) as ->.
    { destruct (Qeq_bool p1 0) eqn:E; [|done]. apply Qeq_bool_iff in E. lra. }
    cbn. eexists. split; [done|].
    fold (Qdiv (p1 - p2) p2). fold (Qdiv (p2 - p1) p1).
    rewrite (Qabs_percent p1 p2) by lra. rewrite (Qabs_percent p2 p1) by lra.
    rewrite (Qabs_Qminus p1 p2). rewrite (Qabs_pos (p2 - p1)) by lra.
    split; [apply percent_le_compat; lra|].
    unfold Qdiv. destruct (Qinv_sign p1) as [Hi1 _], (Qinv_sign p2) as [Hi2 _].
    specialize (Hi1 Hp1). specialize (Hi2 ltac:(lra)).
    assert (p1 * / p1 == 1)%Q as Hinv1 by (apply Qmult_inv_r; lra).
    assert (p2 * / p2 == 1)%Q as Hinv2 by (apply Qmult_inv_r; lra).
    intros Heq. destruct (Qlt_le_dec p1 p2) as [Hlt|Hge]; [|lra].
    exfalso.
    assert (/ p2 < / p1)%Q by nra.
    nra.
Qed.

(** ** The statistics do not depend on the order of the quotes *)







